(** * Plan_Ground: the room-identification core (backend/identify_rooms.py)

    A shallow embedding of [identify] and of the stages it is made of, and the
    properties of the specification stated over it.

    - Python's [float] and NumPy's [float64] are IEEE-754 binary64: they are
      Rocq's primitive floats, with the same rounding, infinities and NaN.
    - An exception is the [Raise] branch of the result type [res].
    - Everything that is not code of this repository ([float()] on a string,
      [re], libm, [round], [random], [list.sort], NumPy's reductions, Shapely,
      the enumeration order of hash sets) is a field of the record [Lib]; the
      theorems hold for every [Lib].  [RefLib] is one concrete [Lib], used to
      run the model on explicit inputs.  The XML parser is met through the
      way [ET.fromstring] ends ([fromstring]). *)

From Stdlib Require Import ZArith List Bool Floats String Ascii Lia PeanoNat.
From Stdlib Require Uint63.
From Stdlib Require Import Permutation.
Import ListNotations.

Set Warnings "-inexact-float,-register-all".


(* ------------------------------------------------------------------------- *)
(** ** Exceptions and results *)

Inductive exn : Type :=
| ValueError      (* float() of a bad string, tuple unpacking of wrong size,
                     and its subclass UnicodeEncodeError from ET.fromstring *)
| KeyError        (* a dictionary has no such key *)
| IndexError      (* a list has no such index *)
| LinAlgError     (* numpy.linalg.svd did not converge *)
| GEOSError.      (* raised inside Shapely *)

(** [OutOfFuel] is not a Python outcome: the two [while] loops of the source
    are run with a bound on their iterations, and [OutOfFuel] says that the
    bound was reached. *)
Inductive res (A : Type) : Type :=
| Ok (a : A)
| Raise (e : exn)
| OutOfFuel.

Arguments Ok {A} a.
Arguments Raise {A} e.
Arguments OutOfFuel {A}.

Definition bind {A B : Type} (m : res A) (k : A -> res B) : res B :=
  match m with
  | Ok a => k a
  | Raise e => Raise e
  | OutOfFuel => OutOfFuel
  end.

Declare Scope res_scope.
Delimit Scope res_scope with res.
Notation "x <- m ;; k" := (bind m (fun x => k))
  (at level 61, m at next level, right associativity) : res_scope.
Notation "' ( x , y ) <- m ;; k" := (bind m (fun p => let '(x, y) := p in k))
  (at level 61, x name, y name, m at next level, right associativity) : res_scope.

(** [mapM f l]: a comprehension or a [for] loop whose body may raise; the
    first exception ends it. *)
Fixpoint mapM {A B : Type} (f : A -> res B) (l : list A) : res (list B) :=
  match l with
  | [] => Ok []
  | a :: l' => bind (f a) (fun b => bind (mapM f l') (fun bs => Ok (b :: bs)))
  end.

(** [l[i] = v] on a list *)
Fixpoint upd {A : Type} (i : nat) (v : A) (l : list A) : list A :=
  match l, i with
  | [], _ => []
  | _ :: t, O => v :: t
  | h :: t, S i' => h :: upd i' v t
  end.

(* ------------------------------------------------------------------------- *)
(** ** Points and the 2-D helpers *)

Definition vec : Type := (float * float)%type.
Definition segment : Type := (vec * vec)%type.

Definition EPS : float := 1.0e-9%float.

Module V.
Local Open Scope float_scope.

Definition sub (a b : vec) : vec := (fst a - fst b, snd a - snd b).
Definition add (a b : vec) : vec := (fst a + fst b, snd a + snd b).
Definition neg (a : vec) : vec := (- fst a, - snd a).
(** [t * d] and [v / n] with a scalar, element by element *)
Definition scale (t : float) (d : vec) : vec := (t * fst d, t * snd d).
Definition div (v : vec) (n : float) : vec := (fst v / n, snd v / n).
(** [np.dot] of two 2-vectors *)
Definition dot (a b : vec) : float := fst a * fst b + snd a * snd b.
(** [np.linalg.norm] of a 2-vector: [sqrt(v.dot(v))] *)
Definition norm (v : vec) : float := sqrt (dot v v).
Definition eqb (a b : vec) : bool := (fst a =? fst b) && (snd a =? snd b).
End V.

Local Open Scope float_scope.

(** [cross_2d]: 2-D cross product (scalar). *)
Definition cross_2d (a b : vec) : float := fst a * snd b - snd a * fst b.

(** [unit]: [v / n if n else v]; a NumPy float is false exactly when it
    compares equal to zero, so NaN takes the first branch. *)
Definition unit (v : vec) : vec :=
  let n := V.norm v in
  if n =? 0 then v else V.div v n.

Local Close Scope float_scope.

(* ------------------------------------------------------------------------- *)
(** ** The runtime and the third-party libraries *)

(** An [xml.etree.ElementTree.Element]: tag, attribute dictionary, children. *)
Inductive element : Type :=
| Element (tag : string) (attrib : list (string * string)) (children : list element).

(** How [ET.fromstring(svg_text)] ends on a [str]: with the root element,
    with ParseError (the text is not well-formed XML; the empty text is such
    a text), or with UnicodeEncodeError (the text cannot be encoded as UTF-8
    for the parser: it holds a lone surrogate). *)
Inductive fromstring : Type :=
| Parsed (root : element)
| ParseError
| UnicodeEncodeError.

(** A [frozenset] of segment indices, kept as its strictly increasing list. *)
Definition fs : Type := list nat.

Record Lib : Type := {
  (** builtins: [float(s)] ([None] when it raises ValueError), [round(x, 6)],
      [re.findall(r"[MLml]\s*([\d\.-]+)[ ,]([\d\.-]+)", d)] *)
  py_float : string -> option float;
  py_round6 : float -> float;
  re_findall_ML : string -> list (string * string);
  (** libm: [atan2(y, x)], [fmod(x, y)], [hypot(x, y)] *)
  atan2 : float -> float -> float;
  fmod : float -> float -> float;
  hypot : float -> float -> float;
  (** the process-wide generator of [random]: [random.seed(a)] installs
      [seed a], [random.random()] draws from the current state *)
  rng : Type;
  seed : Z -> rng;
  random : rng -> float * rng;
  (** NumPy: [np.median(l)], [P.mean(axis=0)], [np.linalg.svd(M)[2][0]] *)
  np_median : list float -> float;
  np_mean0 : list vec -> vec;
  np_svd_v0 : list vec -> res vec;
  (** Shapely: [None] when [from shapely... import] raises ImportError or
      OSError; otherwise [polygonize(LineString(...) ...)] and the accessors *)
  polygon : Type;
  shapely : option (list segment -> res (list polygon));
  is_valid : polygon -> bool;
  area : polygon -> float;
  bounds : polygon -> float * float * float * float;
  (** iteration order of a [set] of ints, of a [set] of frozensets and of a
      frozenset, as a function of the elements in insertion order *)
  iter_ints : list nat -> list nat;
  iter_pairs : list fs -> list fs;
  iter_fs : fs -> list nat;
  (** builtin: [l.sort(key=lambda iv: iv[0])], the list as the sort leaves it.
      Whatever the comparisons of the keys answer (a NaN key compares false
      with every key), [list.sort] leaves a permutation of the list *)
  sort_by_start : list (float * float) -> list (float * float);
  sort_by_start_perm :
    forall l : list (float * float), Permutation l (sort_by_start l)
}.

(** What the theorems may assume of hash-set iteration: it enumerates the
    elements, each once. *)
Record iter_ok (L : Lib) : Prop := {
  iter_ints_perm : forall l, Permutation (iter_ints L l) l;
  iter_pairs_perm : forall l, Permutation (iter_pairs L l) l;
  iter_fs_perm : forall p, Permutation (iter_fs L p) p
}.

(* ------------------------------------------------------------------------- *)
(** ** Strings, as [_extract_polylines] uses them

    A [str] is kept as its UTF-8 bytes: the separators the reader looks for
    are ASCII, and one byte of theirs is never part of another character. *)

Module Str.
Local Open Scope string_scope.

Definition drop (n : nat) (s : string) : string :=
  substring n (String.length s - n) s.

(** [s.split(sep, 1)] when [sep] occurs: the text before and after its
    first occurrence. *)
Fixpoint split_once (sep s : string) : option (string * string) :=
  if prefix sep s then Some ("", drop (String.length sep) s)
  else match s with
       | EmptyString => None
       | String c s' =>
           match split_once sep s' with
           | Some (a, b) => Some (String c a, b)
           | None => None
           end
       end.

(** [sep in s] *)
Definition contains (sep s : string) : bool :=
  match split_once sep s with Some _ => true | None => false end.

(** [s.replace(",", " ")] *)
Fixpoint commas_to_spaces (s : string) : string :=
  match s with
  | EmptyString => EmptyString
  | String c s' =>
      String (if Ascii.eqb c "," then " "%char else c) (commas_to_spaces s')
  end.

(** The characters [str.split()] splits at are those [str.isspace] holds
    of: U+0009-000D, U+001C-001F, U+0020, U+0085, U+00A0, U+1680,
    U+2000-200A, U+2028, U+2029, U+202F, U+205F and U+3000. [space_len s] is
    the number of bytes of the one that [s] starts with, and 0 when it starts
    with none. *)
Definition byte (c : ascii) : nat := nat_of_ascii c.

Definition space_len (s : string) : nat :=
  match s with
  | EmptyString => 0
  | String c0 s1 =>
      let b0 := byte c0 in
      if (b0 =? 32)%nat || ((9 <=? b0) && (b0 <=? 13))%nat
         || ((28 <=? b0) && (b0 <=? 31))%nat then 1
      else
        match s1 with
        | EmptyString => 0
        | String c1 s2 =>
            let b1 := byte c1 in
            if (b0 =? 194)%nat && ((b1 =? 133) || (b1 =? 160))%nat then 2
            else
              match s2 with
              | EmptyString => 0
              | String c2 _ =>
                  let b2 := byte c2 in
                  if ((b0 =? 225) && (b1 =? 154) && (b2 =? 128))%nat
                     || ((b0 =? 226) && (b1 =? 128)
                         && (((128 <=? b2) && (b2 <=? 138))
                             || (b2 =? 168) || (b2 =? 169) || (b2 =? 175)))%nat
                     || ((b0 =? 226) && (b1 =? 129) && (b2 =? 159))%nat
                     || ((b0 =? 227) && (b1 =? 128) && (b2 =? 128))%nat
                  then 3 else 0
              end
        end
  end.

(** [s.split()]: the maximal runs of non-blank characters. [cur] is the run
    being read, reversed, and [skip] the number of bytes still to pass of the
    blank character being read. *)
Definition flush (cur : list ascii) (acc : list string) : list string :=
  match cur with
  | [] => acc
  | _ => string_of_list_ascii (rev cur) :: acc
  end.

Fixpoint split_ws_aux (s : string) (skip : nat) (cur : list ascii)
    (acc : list string) : list string :=
  match s with
  | EmptyString => rev (flush cur acc)
  | String c s' =>
      match skip with
      | S k => split_ws_aux s' k cur acc
      | O =>
          match space_len s with
          | O => split_ws_aux s' 0 (c :: cur) acc
          | S k => split_ws_aux s' k [] (flush cur acc)
          end
      end
  end.

Definition split_ws (s : string) : list string := split_ws_aux s 0 [] [].

Definition is_empty (s : string) : bool :=
  match s with EmptyString => true | _ => false end.
End Str.

(** [d.get(k)] on an attribute dictionary *)
Fixpoint attr_get (k : string) (d : list (string * string)) : option string :=
  match d with
  | [] => None
  | (k', v) :: d' => if String.eqb k k' then Some v else attr_get k d'
  end.

Definition attr_get_or (k dflt : string) (d : list (string * string)) : string :=
  match attr_get k d with Some v => v | None => dflt end.

(** [root.iter()]: the element and its descendants in document order. *)
Fixpoint iter (e : element) : list element :=
  match e with
  | Element _ _ children =>
      e :: (fix iter_all (l : list element) : list element :=
              match l with
              | [] => []
              | c :: l' => iter c ++ iter_all l'
              end) children
  end.

Definition tag_of (e : element) : string := let 'Element t _ _ := e in t.
Definition attrib_of (e : element) : list (string * string) :=
  let 'Element _ a _ := e in a.

(* ------------------------------------------------------------------------- *)
(** ** SVG to thick polylines: [_extract_polylines] *)

Definition polyline : Type := list vec.

(** [pts[0::2]] zipped with [pts[1::2]] *)
Fixpoint pair_up (pts : list float) : list vec :=
  match pts with
  | x :: y :: rest => (x, y) :: pair_up rest
  | _ => []
  end.

Section Extract.
Variable L : Lib.
Local Open Scope string_scope.
Local Open Scope res_scope.

Definition float_of (s : string) : res float :=
  match py_float L s with Some x => Ok x | None => Raise ValueError end.

(** [tag.split("}", 1)[-1]] *)
Definition _strip_ns (tag : string) : string :=
  match Str.split_once "}" tag with Some (_, t) => t | None => tag end.

(** Lines 82-91: the text the stroke width is read from. The [IndexError] of
    a missing [":"] is caught and gives ["1"]. *)
Definition stroke_width_text (attrib : list (string * string)) : string :=
  let sw_txt :=
    match attr_get "stroke-width" attrib with
    | Some s => if Str.is_empty s then attr_get_or "style" "" attrib else s
    | None => attr_get_or "style" "" attrib
    end in
  match Str.split_once "stroke-width" sw_txt with
  | None => sw_txt
  | Some (_, rest) =>
      match Str.split_once ":" rest with
      | None => "1"
      | Some (_, v) =>
          match Str.split_once ";" v with
          | Some (b, _) => b
          | None => v
          end
      end
  end.

(** Line 92: [float(sw_txt or 1.0)]; nothing catches its ValueError. *)
Definition stroke_width (attrib : list (string * string)) : res float :=
  let t := stroke_width_text attrib in
  if Str.is_empty t then Ok 1.0%float else float_of t.

(** One turn of the loop over [root.iter()]: the polylines the element adds
    (none or one), or the exception that leaves the function. *)
Definition extract_element (stroke_thresh : float) (el : element)
  : res (list polyline) :=
  let tag := _strip_ns (tag_of el) in
  let attrib := attrib_of el in
  stroke_w <- stroke_width attrib ;;
  if (stroke_w <? stroke_thresh)%float then Ok []
  else if String.eqb tag "polyline" || String.eqb tag "polygon" then
    let raw_pts := Str.split_ws (Str.commas_to_spaces (attr_get_or "points" "" attrib)) in
    if (List.length raw_pts <? 4)%nat then Ok []
    else pts <- mapM float_of raw_pts ;; Ok [pair_up pts]
  else if String.eqb tag "line" then
    match attr_get "x1" attrib, attr_get "y1" attrib,
          attr_get "x2" attrib, attr_get "y2" attrib with
    | Some sx1, Some sy1, Some sx2, Some sy2 =>
        match py_float L sx1, py_float L sy1, py_float L sx2, py_float L sy2 with
        | Some x1, Some y1, Some x2, Some y2 => Ok [[(x1, y1); (x2, y2)]]
        | _, _, _, _ => Ok []
        end
    | _, _, _, _ => Ok []
    end
  else if String.eqb tag "path" then
    let d := attr_get_or "d" "" attrib in
    if Str.is_empty d then Ok []
    else
      let matches := re_findall_ML L d in
      if (List.length matches <? 2)%nat then Ok []
      else
        pts <- mapM (fun m => x <- float_of (fst m) ;; y <- float_of (snd m) ;; Ok (x, y))
                    matches ;;
        Ok [pts]
  else Ok [].

(** [_extract_polylines(svg_text)], from the way [ET.fromstring(svg_text)]
    ends (lines 72-75): the [except] clause catches ParseError and nothing
    else, so the UnicodeEncodeError leaves the function. It is given as
    [ValueError], the class it derives from. *)
Definition _extract_polylines (parsed : fromstring) : res (list polyline) :=
  match parsed with
  | ParseError => Ok []
  | UnicodeEncodeError => Raise ValueError
  | Parsed root =>
      ps <- mapM (extract_element 1.5%float) (iter root) ;;
      Ok (List.concat ps)
  end.
End Extract.

(* ------------------------------------------------------------------------- *)
(** ** Sets of indices and of frozensets

    A [set] is the list of its elements in insertion order, without
    repetition; only membership and (through [Lib]) iteration observe it. *)

Fixpoint fs_eqb (p q : fs) : bool :=
  match p, q with
  | [], [] => true
  | a :: p', b :: q' => (a =? b)%nat && fs_eqb p' q'
  | _, _ => false
  end.

Definition mem (i : nat) (s : list nat) : bool := existsb (Nat.eqb i) s.
Definition fs_mem (p : fs) (s : list fs) : bool := existsb (fs_eqb p) s.

(** [s.add(x)] *)
Definition add_int (i : nat) (s : list nat) : list nat :=
  if mem i s then s else s ++ [i].
Definition add_fs (p : fs) (s : list fs) : list fs :=
  if fs_mem p s then s else s ++ [p].

(** [s |= t], [t] given in the order it is enumerated *)
Definition union_ints (s t : list nat) : list nat :=
  fold_left (fun acc i => add_int i acc) t s.
Definition union_fs (s t : list fs) : list fs :=
  fold_left (fun acc p => add_fs p acc) t s.

(** [frozenset({a, b})] *)
Definition mk_fs (a b : nat) : fs :=
  if (a =? b)%nat then [a] else if (a <? b)%nat then [a; b] else [b; a].

(** [enumerate(l)] *)
Definition enumerate {A : Type} (l : list A) : list (nat * A) :=
  combine (seq 0 (List.length l)) l.

(* ------------------------------------------------------------------------- *)
(** ** Flattener, Caster and Pair-Seeder (lines 136-282) *)

Definition seg0 : segment := ((0, 0), (0, 0))%float.

Section Front.
Variable L : Lib.
Local Open Scope float_scope.

(** Lines 137-139: one segment for each [zip(poly[:-1], poly[1:])]. *)
Definition zip_consecutive (poly : polyline) : list segment :=
  combine (removelast poly) (tl poly).

Definition flatten (polys : list polyline) : list segment :=
  flat_map zip_consecutive polys.

(** [math.degrees] and Python's [x % 180] on floats (the remainder takes
    the sign of 180; a zero remainder is [+0.0]). *)
Definition pi : float := 0x1.921fb54442d18p+1.
Definition degrees (x : float) : float := x * (180 / pi).
Definition mod180 (x : float) : float :=
  let m := fmod L x 180 in
  if m =? 0 then 0 else if m <? 0 then m + 180 else m.

(** Lines 143-147 *)
Definition orientation (s : segment) : float :=
  let '((x1, y1), (x2, y2)) := s in
  mod180 (degrees (atan2 L (y2 - y1) (x2 - x1))).

Definition midpoint (s : segment) : vec :=
  let '((x1, y1), (x2, y2)) := s in ((x1 + x2) / 2, (y1 + y2) / 2).

Definition length (s : segment) : float :=
  let '((x1, y1), (x2, y2)) := s in
  let dx := x2 - x1 in let dy := y2 - y1 in
  sqrt (dx * dx + dy * dy).

(** Lines 155-158: one draw per segment, in order. *)
Fixpoint rand_points_from (g : rng L) (segs : list segment)
  : list vec * rng L :=
  match segs with
  | [] => ([], g)
  | ((x1, y1), (x2, y2)) :: rest =>
      let (t, g1) := random L g in
      let (ps, g2) := rand_points_from g1 rest in
      ((x1 + t * (x2 - x1), y1 + t * (y2 - y1)) :: ps, g2)
  end.

(** Lines 161-170 *)
Definition intersect_ray_segment (P d Q1 Q2 : vec) : option (float * vec) :=
  let r := V.sub Q2 Q1 in
  let denom := cross_2d d r in
  if abs denom <? EPS then None
  else
    let t := cross_2d (V.sub Q1 P) r / denom in
    let u := cross_2d (V.sub Q1 P) d / denom in
    if (0 <=? t) && ((0 <=? u) && (u <=? 1))
    then Some (t, V.add P (V.scale t d))
    else None.

(** Lines 181-188: the scan of all segments along one normal. *)
Definition scan_normal (segs : list segment) (idx : nat) (P0 d : vec)
    (best : float * option vec) : float * option vec :=
  fold_left
    (fun best (js : nat * segment) =>
       let '(jdx, (Q1, Q2)) := js in
       if (jdx =? idx)%nat then best
       else match intersect_ray_segment P0 d Q1 Q2 with
            | Some (t, P_hit) =>
                if t <? fst best then (t, Some P_hit) else best
            | None => best
            end)
    (enumerate segs) best.

(** Lines 173-193: the nearest hit of the two normals of segment [idx]. *)
Definition cast (segs : list segment) (rand_points : list vec)
    (idx : nat) (s : segment) : option vec :=
  let '((x1, y1), (x2, y2)) := s in
  let P0 := nth idx rand_points (0, 0) in
  let v := (x2 - x1, y2 - y1) in
  let v_norm := let n := V.norm v in if n =? 0 then 1.0 else n in
  let n1 := V.div (- snd v, fst v) v_norm in
  let n2 := V.div (snd v, - fst v) v_norm in
  snd (scan_normal segs idx P0 n2
         (scan_normal segs idx P0 n1 (infinity, None))).

(** [pairs_dict], in insertion order. ([pair_points] and [connectors], and
    the lists that lines 196-221 fill, are read by nothing: they are left
    out.) *)
Definition pairs_dict (segs : list segment) (rand_points : list vec)
  : list (nat * vec) :=
  flat_map
    (fun (ks : nat * segment) =>
       match cast segs rand_points (fst ks) (snd ks) with
       | Some best_pt => [(fst ks, best_pt)]
       | None => []
       end)
    (enumerate segs).

(** Lines 226-231 *)
Definition point_on_segment (P Q1 Q2 : vec) : bool :=
  let tol := 1e-6 in
  if tol <? abs (cross_2d (V.sub Q2 Q1) (V.sub P Q1)) then false
  else
    let dot1 := V.dot (V.sub P Q1) (V.sub Q2 Q1) in
    let dot2 := V.dot (V.sub P Q2) (V.sub Q1 Q2) in
    (- tol <=? dot1) && (- tol <=? dot2).

(** Lines 238-244: the first other segment that carries [P1]. *)
Definition find_idxB (segs : list segment) (idxA : nat) (P1 : vec)
  : option nat :=
  option_map fst
    (find (fun (js : nat * segment) =>
             negb (fst js =? idxA)%nat
             && point_on_segment P1 (fst (snd js)) (snd (snd js)))
          (enumerate segs)).

Definition MAX_GAP_RATIO : float := 2.0.

(** Lines 274-282: the first candidate whose ray reaches [B] within the
    allowed gap confirms the pair. *)
Fixpoint confirm (candidates : list vec) (d_hat B1 B2 : vec) (d : float)
  : bool :=
  match candidates with
  | [] => false
  | P2 :: rest =>
      match intersect_ray_segment P2 d_hat B1 B2 with
      | Some (t_hit, _) =>
          if MAX_GAP_RATIO * d <? t_hit then confirm rest d_hat B1 B2 d
          else true
      | None => confirm rest d_hat B1 B2 d
      end
  end.

(** Lines 235-282, one turn: the pair that [idxA] seeds, if any. *)
Definition seed_pair (segs : list segment) (rand_points : list vec)
    (idxA : nat) (P1 : vec) : option fs :=
  let P0 := nth idxA rand_points (0, 0) in
  match find_idxB segs idxA P1 with
  | None => None
  | Some idxB =>
      let '((x1, y1), (x2, y2)) := nth idxA segs seg0 in
      let v := (x2 - x1, y2 - y1) in
      let Ln := V.norm v in
      if Ln =? 0 then None
      else
        let v_hat := V.div v Ln in
        let t0 := V.dot (V.sub P0 (x1, y1)) v_hat / Ln in
        let d := V.norm (V.sub P1 P0) in
        let dt := d / Ln in
        let candidates :=
          flat_map (fun sign =>
                      let t2 := t0 + sign * dt in
                      if (0 <=? t2) && (t2 <=? 1)
                      then [V.add (x1, y1) (V.scale t2 v)] else [])
                   [-1; 1] in
        let dir_vec := V.sub P1 P0 in
        let n_len := V.norm dir_vec in
        if n_len <? EPS then None
        else
          let d_hat := V.div dir_vec n_len in
          let '(B1, B2) := nth idxB segs seg0 in
          if confirm candidates d_hat B1 B2 d
          then Some (mk_fs idxA idxB) else None
  end.

(** Lines 233-282: the first generation of stripe pairs. *)
Definition seed_pairs (segs : list segment) (rand_points : list vec)
  : list fs :=
  fold_left
    (fun stripe_pairs (ip : nat * vec) =>
       match seed_pair segs rand_points (fst ip) (snd ip) with
       | Some p => add_fs p stripe_pairs
       | None => stripe_pairs
       end)
    (pairs_dict segs rand_points) [].
End Front.

(* ------------------------------------------------------------------------- *)
(** ** Pair-Grower (lines 284-352) *)

Inductive outcome : Type :=
| Complete    (* [lonely] is empty *)
| Stalled.    (* no new pair in this iteration *)

Inductive step (A : Type) : Type :=
| Done (o : outcome)
| Continue (a : A).

Arguments Done {A} o.
Arguments Continue {A} a.

Section Grower.
Variable L : Lib.
Variable segs : list segment.
Local Open Scope float_scope.

Definition EPS_PT : float := 1e-6.
Definition ANG_TOL : float := 5.0.

Definition same_pt (P Q : vec) : bool :=
  (abs (fst P - fst Q) <=? EPS_PT) && (abs (snd P - snd Q) <=? EPS_PT).

Definition orientations : list float := map (orientation L) segs.

Definition is_parallel (i j : nat) : bool :=
  let d_ang := abs (nth i orientations 0 - nth j orientations 0) in
  let d_ang := if d_ang <=? 90 then d_ang else 180 - d_ang in
  d_ang <=? ANG_TOL.

Definition endpts (i : nat) : segment := nth i segs seg0.

(** The key of [pt2segs] for a point. Keys are tuples of floats: they are
    the same key when both coordinates compare equal. *)
Definition key (P : vec) : vec := (py_round6 L (fst P), py_round6 L (snd P)).

(** [pt2segs[k]]: the indices appended under [k], in order (lines 297-300). *)
Definition pt2segs (k : vec) : list nat :=
  flat_map
    (fun (js : nat * segment) =>
       (if V.eqb (key (fst (snd js))) k then [fst js] else [])
       ++ (if V.eqb (key (snd (snd js))) k then [fst js] else []))
    (enumerate segs).

(** Lines 302-308; the result is a set, given here in the order its
    elements were inserted. *)
Definition reds_adjacent_to (seg_idx : nat) (lonely : list nat) : list nat :=
  let '(P, Q) := endpts seg_idx in
  let near (R : vec) := filter (fun j => mem j lonely) (pt2segs (key R)) in
  union_ints (union_ints [] (near P)) (near Q).

(** [A, B = tuple(pair)] *)
Definition unpack2 (pr : fs) : res (nat * nat) :=
  match iter_fs L pr with
  | [A; B] => Ok (A, B)
  | _ => Raise ValueError
  end.

(** Lines 319-331: is [u] a connector of some stripe pair? The pairs are
    tried in iteration order until one matches. *)
Fixpoint is_connector (u : nat) (pairs : list fs) : res bool :=
  match pairs with
  | [] => Ok false
  | pr :: rest =>
      bind (unpack2 pr) (fun AB =>
        let '(A, B) := AB in
        let '(U1, U2) := endpts u in
        let '(A1, A2) := endpts A in
        let '(B1, B2) := endpts B in
        if ((same_pt U1 A1 || same_pt U1 A2) && (same_pt U2 B1 || same_pt U2 B2))
           || ((same_pt U2 A1 || same_pt U2 A2) && (same_pt U1 B1 || same_pt U1 B2))
        then Ok true
        else is_connector u rest)
  end.

(** Lines 342-346: the inner loop over [cand_B] for one [r1]. *)
Definition try_r2 (r1 : nat) (cand_B : list nat) (st : list fs * list nat)
  : list fs * list nat :=
  match find (is_parallel r1) cand_B with
  | Some r2 => (add_fs (mk_fs r1 r2) (fst st), add_int r2 (add_int r1 (snd st)))
  | None => st
  end.

(** Lines 341-348: the loop over [cand_A], left as soon as [r1 in used]. *)
Fixpoint try_r1 (cand_A cand_B : list nat) (st : list fs * list nat)
  : list fs * list nat :=
  match cand_A with
  | [] => st
  | r1 :: rest =>
      let st' := try_r2 r1 cand_B st in
      if mem r1 (snd st') then st' else try_r1 rest cand_B st'
  end.

(** Lines 338-348: [new_pairs, used] after all stripe pairs were visited. *)
Fixpoint absorb (lonely : list nat) (pairs : list fs) (st : list fs * list nat)
  : res (list fs * list nat) :=
  match pairs with
  | [] => Ok st
  | pr :: rest =>
      bind (unpack2 pr) (fun AB =>
        let '(A, B) := AB in
        let cand (X : nat) :=
          filter (fun r => negb (mem r (snd st)))
                 (iter_ints L (reds_adjacent_to X lonely)) in
        absorb lonely rest (try_r1 (cand A) (cand B) st))
  end.

Definition paired (stripe_pairs : list fs) : list nat := List.concat stripe_pairs.

Definition ungrouped (stripe_pairs : list fs) : list nat :=
  filter (fun i => negb (mem i (paired stripe_pairs)))
         (seq 0 (List.length segs)).

(** Lines 312-352: one turn of [while True]. *)
Definition grow_step (stripe_pairs : list fs) : res (step (list fs)) :=
  let ung := ungrouped stripe_pairs in
  bind (mapM (fun u => bind (is_connector u (iter_pairs L stripe_pairs))
                            (fun c => Ok (u, c)))
             (iter_ints L ung)) (fun flags =>
    let connector := map fst (filter snd flags) in
    let lonely := filter (fun u => negb (mem u connector)) ung in
    match lonely with
    | [] => Ok (Done Complete)
    | _ =>
        bind (absorb lonely (iter_pairs L stripe_pairs) ([], [])) (fun st =>
          match fst st with
          | [] => Ok (Done Stalled)
          | new_pairs =>
              Ok (Continue (union_fs stripe_pairs (iter_pairs L new_pairs)))
          end)
    end).

(** The loop, for at most [fuel] turns: the final stripe pairs and the way
    the loop was left. *)
Fixpoint grow (fuel : nat) (stripe_pairs : list fs) : res (list fs * outcome) :=
  match fuel with
  | O => OutOfFuel
  | S fuel' =>
      bind (grow_step stripe_pairs) (fun s =>
        match s with
        | Done o => Ok (stripe_pairs, o)
        | Continue stripe_pairs' => grow fuel' stripe_pairs'
        end)
  end.

(** Every turn that continues pairs a segment that was not paired, so one
    turn more than there are segments is enough ([grower_terminates]). *)
Definition grower (stripe_pairs : list fs) : res (list fs * outcome) :=
  grow (S (List.length segs)) stripe_pairs.
End Grower.

(* ------------------------------------------------------------------------- *)
(** ** Skeletoniser (lines 354-485) *)

(** [max(a, b)]: [b] when [b > a], else [a] *)
Definition pymax (a b : float) : float := if (a <? b)%float then b else a.

(** [clusters[r].append(idx)] on a [defaultdict(list)] in insertion order *)
Fixpoint cl_add (r idx : nat) (cl : list (nat * list nat)) : list (nat * list nat) :=
  match cl with
  | [] => [(r, [idx])]
  | (k, ms) :: t =>
      if (k =? r)%nat then (k, ms ++ [idx]) :: t else (k, ms) :: cl_add r idx t
  end.

(** The order [list.sort(key=lambda iv: iv[0])] gives when no key is NaN:
    ascending and stable. [RefLib] sorts with it. *)
Fixpoint insert_iv (x : float * float) (l : list (float * float))
  : list (float * float) :=
  match l with
  | [] => [x]
  | y :: t => if (fst y <? fst x)%float then y :: insert_iv x t else x :: y :: t
  end.

Definition sort_iv (l : list (float * float)) : list (float * float) :=
  fold_right insert_iv [] l.

Definition insert_iv_perm (x : float * float) (l : list (float * float))
  : Permutation (x :: l) (insert_iv x l).
Proof.
  induction l as [| y t IH]; cbn [insert_iv]; [apply Permutation_refl |].
  destruct (fst y <? fst x)%float; [| apply Permutation_refl].
  apply perm_trans with (y :: x :: t); [apply perm_swap | apply perm_skip, IH].
Qed.

Definition sort_iv_perm (l : list (float * float)) : Permutation l (sort_iv l).
Proof.
  induction l as [| x l IH]; [apply perm_nil |].
  cbn [sort_iv fold_right].
  apply perm_trans with (x :: sort_iv l); [apply perm_skip, IH | apply insert_iv_perm].
Qed.

Section Skeleton.
Variable L : Lib.
Variable segs : list segment.
Local Open Scope float_scope.

Definition dist (P Q : vec) : float := hypot L (fst P - fst Q) (snd P - snd Q).

Definition mid (c : segment) : vec :=
  let '(P, Q) := c in ((fst P + fst Q) / 2, (snd P + snd Q) / 2).

(** Lines 360-367 for one stripe pair *)
Definition midpoint_line (idxA idxB : nat) : segment :=
  let '(A1, A2) := endpts segs idxA in
  let '(B1, B2) := endpts segs idxB in
  let L1 := dist A1 B1 + dist A2 B2 in
  let L2 := dist A1 B2 + dist A2 B1 in
  if L1 <=? L2 then (mid (A1, B1), mid (A2, B2))
  else (mid (A1, B2), mid (A2, B1)).

(** Line 359: the loop unpacks every stripe pair. *)
Definition midpoint_lines (stripe_pairs : list fs) : res (list segment) :=
  mapM (fun pr => bind (unpack2 L pr)
                       (fun AB => Ok (midpoint_line (fst AB) (snd AB))))
       (iter_pairs L stripe_pairs).

Definition ANG_TOL_ALIGN : float := 3.0.
Definition SHIFT_TOL_RATIO : float := 0.02.

Section Violet.
Variable violet_xy : list segment.

Definition xy (i : nat) : segment := nth i violet_xy seg0.
Definition violet_dir (i : nat) : vec := unit (V.sub (snd (xy i)) (fst (xy i))).
Definition violet_len (i : nat) : float := V.norm (V.sub (snd (xy i)) (fst (xy i))).
Definition violet_mid (i : nat) : vec := V.div (V.add (fst (xy i)) (snd (xy i))) 2.
Definition violet_ang (i : nat) : float :=
  let d := V.sub (snd (xy i)) (fst (xy i)) in
  mod180 L (degrees (atan2 L (snd d) (fst d))).

(** Lines 385-389: [find] with path halving. *)
Fixpoint uf_find (fuel : nat) (parent : list nat) (i : nat)
  : res (list nat * nat) :=
  match fuel with
  | O => OutOfFuel
  | S fuel' =>
      let p := nth i parent O in
      if (p =? i)%nat then Ok (parent, i)
      else
        let pp := nth p parent O in
        uf_find fuel' (upd i pp parent) pp
  end.

Definition find_root (parent : list nat) (i : nat) : res (list nat * nat) :=
  uf_find (S (List.length parent)) parent i.

(** Lines 391-394 *)
Definition union (parent : list nat) (i j : nat) : res (list nat) :=
  bind (find_root parent i) (fun pa =>
  bind (find_root (fst pa) j) (fun pb =>
    if (snd pa =? snd pb)%nat then Ok (fst pb)
    else Ok (upd (snd pb) (snd pa) (fst pb)))).

(** Lines 396-397 *)
Definition perp_dist (P A v_hat : vec) : float :=
  let D := V.sub P A in
  abs (fst D * snd v_hat - snd D * fst v_hat).

(** Lines 401-406: are links [i] and [j] on one axis? *)
Definition same_axis (i j : nat) : bool :=
  let dang := abs (violet_ang i - violet_ang j) in
  let dang := if dang <=? 90 then dang else 180 - dang in
  if ANG_TOL_ALIGN <? dang then false
  else
    let gap := perp_dist (violet_mid i) (fst (xy j)) (violet_dir j) in
    gap <=? SHIFT_TOL_RATIO * pymax (violet_len i) (violet_len j).

(** [(i, j)] for [i in range(n)], [j in range(i + 1, n)] *)
Definition index_pairs (n : nat) : list (nat * nat) :=
  flat_map (fun i => map (fun j => (i, j)) (seq (S i) (n - S i))) (seq 0 n).

Fixpoint fold_res {A B : Type} (f : B -> A -> res B) (l : list A) (b : B)
  : res B :=
  match l with
  | [] => Ok b
  | a :: l' => bind (f b a) (fun b' => fold_res f l' b')
  end.

(** Lines 383-407 *)
Definition united : res (list nat) :=
  let n := List.length violet_xy in
  fold_res (fun parent (ij : nat * nat) =>
              if same_axis (fst ij) (snd ij)
              then union parent (fst ij) (snd ij) else Ok parent)
           (index_pairs n) (seq 0 n).

(** Lines 409-411 *)
Definition clustered (parent : list nat)
  : res (list nat * list (nat * list nat)) :=
  fold_res (fun (st : list nat * list (nat * list nat)) idx =>
              bind (find_root (fst st) idx) (fun pr =>
                Ok (fst pr, cl_add (snd pr) idx (snd st))))
           (seq 0 (List.length violet_xy)) (parent, []).

Definition flip (axis_v : vec) : vec :=
  if fst axis_v <? 0 then V.neg axis_v else axis_v.

(** Lines 414-427 for one cluster: its anchor and direction. *)
Definition axis_of (members : list nat) : res (vec * vec) :=
  match members with
  | [m] =>
      let '(p1, p2) := xy m in
      Ok (p1, flip (unit (V.sub p2 p1)))
  | _ =>
      let P := flat_map (fun m => [fst (xy m); snd (xy m)]) members in
      let ctr := np_mean0 L P in
      bind (np_svd_v0 L (map (fun p => V.sub p ctr) P)) (fun v =>
        Ok (ctr, flip (unit v)))
  end.

Definition cluster_axes (clusters : list (nat * list nat))
  : res (list (nat * (vec * vec))) :=
  mapM (fun (c : nat * list nat) =>
          bind (axis_of (snd c)) (fun a => Ok (fst c, a)))
       clusters.

(** [cluster_axis[root]] *)
Fixpoint axis_get (root : nat) (axes : list (nat * (vec * vec)))
  : res (vec * vec) :=
  match axes with
  | [] => Raise KeyError
  | (k, a) :: t => if (k =? root)%nat then Ok a else axis_get root t
  end.

Definition project (anchor v_hat P : vec) : vec :=
  V.add anchor (V.scale (V.dot (V.sub P anchor) v_hat) v_hat).

(** Lines 430-436 *)
Definition aligned (parent : list nat) (axes : list (nat * (vec * vec)))
  : res (list nat * list segment) :=
  fold_res (fun (st : list nat * list segment) (il : nat * segment) =>
              let '(idx, (P, Q)) := il in
              bind (find_root (fst st) idx) (fun pr =>
              bind (axis_get (snd pr) axes) (fun a =>
                let '(anchor, v_hat) := a in
                let P_proj := project anchor v_hat P in
                let Q_proj := project anchor v_hat Q in
                let link :=
                  if V.dot (V.sub Q_proj P_proj) v_hat <? 0
                  then (Q_proj, P_proj) else (P_proj, Q_proj) in
                Ok (fst pr, snd st ++ [link]))))
           (enumerate violet_xy) (parent, []).
End Violet.

(** Lines 438-453: [weld]. [uniques] is the list of representatives met so
    far, and [canon] the local function of that name. *)
Definition near (tol : float) (pt c : vec) : bool :=
  hypot L (fst pt - fst c) (snd pt - snd c) <=? tol.

Definition canon (tol : float) (uniques : list vec) (pt : vec)
  : vec * list vec :=
  match find (near tol pt) uniques with
  | Some c => (c, uniques)
  | None => (pt, uniques ++ [pt])
  end.

Fixpoint weld_from (tol : float) (uniques : list vec) (seglist : list segment)
  : list segment :=
  match seglist with
  | [] => []
  | (A, B) :: rest =>
      let (a, u1) := canon tol uniques A in
      let (b, u2) := canon tol u1 B in
      (a, b) :: weld_from tol u2 rest
  end.

Definition weld (tol : float) (seglist : list segment) : list segment :=
  weld_from tol [] seglist.

(** Lines 471-479: greedy union of the sorted intervals. *)
Fixpoint merge_from (tol cur_a cur_b : float) (rest : list (float * float))
  : list (float * float) :=
  match rest with
  | [] => [(cur_a, cur_b)]
  | (a, b) :: rest' =>
      if a <=? cur_b + tol then merge_from tol cur_a (pymax cur_b b) rest'
      else (cur_a, cur_b) :: merge_from tol a b rest'
  end.

(** Lines 460-483 for one cluster *)
Definition unify_cluster (tol : float) (aligned_links : list segment)
    (axis : vec * vec) (members : list nat) : res (list segment) :=
  let '(anchor, v_hat) := axis in
  let intervals :=
    map (fun idx =>
           let '(P, Q) := nth idx aligned_links seg0 in
           let s1 := V.dot (V.sub P anchor) v_hat in
           let s2 := V.dot (V.sub Q anchor) v_hat in
           if s2 <? s1 then (s2, s1) else (s1, s2))
        members in
  match sort_by_start L intervals with
  | [] => Raise IndexError
  | (cur_a, cur_b) :: rest =>
      Ok (map (fun iv => (V.add anchor (V.scale (fst iv) v_hat),
                          V.add anchor (V.scale (snd iv) v_hat)))
              (merge_from tol cur_a cur_b rest))
  end.

(** Lines 354-485: from the stripe pairs to the unified, welded links. *)
Definition skeleton (stripe_pairs : list fs) : res (list segment) :=
  bind (midpoint_lines stripe_pairs) (fun violet_xy =>
  let med_link_len := np_median L (map (fun l => dist (fst l) (snd l)) violet_xy) in
  let POINT_JOIN_TOL := 0.005 * med_link_len in
  bind (united violet_xy) (fun parent =>
  bind (clustered violet_xy parent) (fun pc =>
  let clusters := snd pc in
  bind (cluster_axes violet_xy clusters) (fun axes =>
  bind (aligned violet_xy (fst pc) axes) (fun pa =>
  let aligned_links := weld POINT_JOIN_TOL (snd pa) in
  bind (mapM (fun (c : nat * list nat) =>
                bind (axis_get (fst c) axes) (fun a =>
                  unify_cluster POINT_JOIN_TOL aligned_links a (snd c)))
             clusters) (fun unified =>
  Ok (weld POINT_JOIN_TOL (List.concat unified)))))))).
End Skeleton.

(* ------------------------------------------------------------------------- *)
(** ** Polygoniser and [identify] (lines 130-134 and 487-504) *)

(** A room: [{"bbox": [x, y, w, h]}] *)
Record room : Type := { bbox : float * float * float * float }.

Definition room_x (r : room) : float := fst (fst (fst (bbox r))).
Definition room_y (r : room) : float := snd (fst (fst (bbox r))).
Definition width (r : room) : float := snd (fst (bbox r)).
Definition height (r : room) : float := snd (bbox r).

Definition MIN_ROOM_AREA : float := 1e-3%float.

Section Identify.
Variable L : Lib.
Local Open Scope float_scope.

(** Lines 497-502 for one face *)
Definition room_of (poly : polygon L) : list room :=
  if negb (is_valid L poly) || (area L poly <? MIN_ROOM_AREA) then []
  else
    let '(minx, miny, maxx, maxy) := bounds L poly in
    [ {| bbox := (minx, miny, maxx - minx, maxy - miny) |} ].

(** Lines 488-504 *)
Definition polygonise (unified_links : list segment) : res (list room) :=
  match shapely L with
  | None => Ok []
  | Some polygonize =>
      let line_strings :=
        filter (fun PQ : segment => negb (V.eqb (fst PQ) (snd PQ))) unified_links in
      bind (polygonize line_strings) (fun polys => Ok (flat_map room_of polys))
  end.

(** Lines 233-352: the stripe pairs when the Pair-Grower is left. *)
Definition stripe_pairs_of (segs : list segment) (rand_points : list vec)
  : res (list fs * outcome) :=
  grower L segs (seed_pairs segs rand_points).

(** Lines 136-485, for a non-empty list of polylines and the random
    points drawn for its segments. *)
Definition unified_links_of (segs : list segment) (rand_points : list vec)
  : res (list segment) :=
  bind (stripe_pairs_of segs rand_points) (fun po => skeleton L segs (fst po)).

(** [identify] on the polylines the reader found: the rooms or the
    exception, and the state the generator of [random] is left in. *)
Definition identify_polylines (g : rng L) (thick_polylines : list polyline)
  : res (list room) * rng L :=
  match thick_polylines with
  | [] => (Ok [], g)
  | _ =>
      let segments := flatten thick_polylines in
      let (rand_points, g') := rand_points_from L (seed L 42) segments in
      (bind (unified_links_of segments rand_points) polygonise, g')
  end.

(** [identify(svg_text)], from the way [ET.fromstring(svg_text)] ends and
    the state of the process-wide generator when it is called. *)
Definition identify (g : rng L) (parsed : fromstring)
  : res (list room) * rng L :=
  match _extract_polylines L parsed with
  | Ok thick_polylines => identify_polylines g thick_polylines
  | Raise e => (Raise e, g)
  | OutOfFuel => (OutOfFuel, g)
  end.
End Identify.

(* ------------------------------------------------------------------------- *)
(** ** A reference runtime

    [RefLib] is the [Lib] the concrete runs below use.
    - [random]: CPython's Mersenne Twister (MT19937, [init_by_array] seeding,
      53-bit doubles), exact for seeds below 2^32.
    - [round(x, 6)] and [fmod]: computed from the exact value of the float,
      as CPython and libm do.
    - [float(s)]: plain decimals ([-12.5]); other spellings are refused.
    - [atan2]: the eight compass directions, where libm's value is known
      exactly; NaN elsewhere.  [hypot]: [sqrt(x*x + y*y)].
    - sets of small ints are enumerated in increasing order, as CPython does;
      sets of frozensets in insertion order.
    - no [re] match, no SVD, and Shapely is not installed. *)

Module MT.
Local Open Scope Z_scope.

Definition w32 (x : Z) : Z := Z.land x 0xffffffff.
Definition at_ (mt : list Z) (i : nat) : Z := nth i mt 0.

Record state : Type := { mt : list Z; index : nat }.

Fixpoint init_tail (n : nat) (i prev : Z) : list Z :=
  match n with
  | O => []
  | S n' =>
      let x := w32 (1812433253 * Z.lxor prev (Z.shiftr prev 30) + i) in
      x :: init_tail n' (i + 1) x
  end.

Definition init_genrand (s : Z) : list Z :=
  let s0 := w32 s in s0 :: init_tail 623 1 s0.

Definition wrap (m : list Z) (i : nat) : list Z * nat :=
  if (624 <=? i)%nat then (upd 0 (at_ m 623) m, 1%nat) else (m, i).

Fixpoint mix1 (k : nat) (key : list Z) (m : list Z) (i j : nat) : list Z * nat :=
  match k with
  | O => (m, i)
  | S k' =>
      let prev := at_ m (i - 1) in
      let x := w32 (Z.lxor (at_ m i) (Z.lxor prev (Z.shiftr prev 30) * 1664525)
                    + nth j key 0 + Z.of_nat j) in
      let '(m', i') := wrap (upd i x m) (S i) in
      let j' := if (List.length key <=? S j)%nat then O else S j in
      mix1 k' key m' i' j'
  end.

Fixpoint mix2 (k : nat) (m : list Z) (i : nat) : list Z :=
  match k with
  | O => m
  | S k' =>
      let prev := at_ m (i - 1) in
      let x := w32 (Z.lxor (at_ m i) (Z.lxor prev (Z.shiftr prev 30) * 1566083941)
                    - Z.of_nat i) in
      let '(m', i') := wrap (upd i x m) (S i) in
      mix2 k' m' i'
  end.

Definition init_by_array (key : list Z) : state :=
  let '(m, i) := mix1 (Nat.max 624 (List.length key)) key (init_genrand 19650218) 1 0 in
  {| mt := upd 0 0x80000000 (mix2 623 m i); index := 624 |}.

Definition twist (m : list Z) : list Z :=
  fold_left
    (fun m kk =>
       let y := Z.lor (Z.land (at_ m kk) 0x80000000)
                      (Z.land (at_ m ((kk + 1) mod 624)) 0x7fffffff) in
       let x := Z.lxor (Z.lxor (at_ m ((kk + 397) mod 624)) (Z.shiftr y 1))
                       (if Z.odd y then 0x9908b0df else 0) in
       upd kk x m)
    (seq 0 624) m.

Definition genrand_uint32 (s : state) : Z * state :=
  let '(m, i) :=
    if (624 <=? index s)%nat then (twist (mt s), O) else (mt s, index s) in
  let y := at_ m i in
  let y := Z.lxor y (Z.shiftr y 11) in
  let y := Z.lxor y (Z.land (Z.shiftl y 7) 0x9d2c5680) in
  let y := Z.lxor y (Z.land (Z.shiftl y 15) 0xefc60000) in
  let y := Z.lxor y (Z.shiftr y 18) in
  (w32 y, {| mt := m; index := S i |}).

Definition random (s : state) : float * state :=
  let '(a, s1) := genrand_uint32 s in
  let '(b, s2) := genrand_uint32 s1 in
  let n := Z.shiftr a 5 * 67108864 + Z.shiftr b 6 in
  ((PrimFloat.of_uint63 (Uint63.of_Z n) / 9007199254740992)%float, s2).

Definition seed (a : Z) : state := init_by_array [Z.abs a].
End MT.

Module Num.
Local Open Scope Z_scope.

(** the float nearest to a natural number below 2^63 *)
Definition of_Z (z : Z) : float := PrimFloat.of_uint63 (Uint63.of_Z z).

Definition half_even (num den : Z) : Z :=
  let q := num / den in
  let r := num mod den in
  match 2 * r ?= den with
  | Lt => q
  | Gt => q + 1
  | Eq => if Z.even q then q else q + 1
  end.

(** [round(x, 6)]: the exact value of [x] rounded half-even to a multiple
    of 10^-6, then the nearest float; from 2^53 * 10^-6 on, that is [x]. *)
Definition round6 (x : float) : float :=
  match Prim2SF x with
  | S754_finite s m e =>
      let n := if 0 <=? e then Z.pos m * 2 ^ e * 1000000
               else half_even (Z.pos m * 1000000) (2 ^ (- e)) in
      if n <? 2 ^ 53
      then let r := (of_Z n / 1000000)%float in if s then (- r)%float else r
      else x
  | _ => x
  end.

(** C's [fmod]: the exact remainder, with the sign of [x]. *)
Definition fmod (x y : float) : float :=
  match Prim2SF x, Prim2SF y with
  | S754_finite sx mx ex, S754_finite _ my ey =>
      let e := Z.min ex ey in
      let r := (Z.pos mx * 2 ^ (ex - e)) mod (Z.pos my * 2 ^ (ey - e)) in
      SF2Prim (binary_normalize prec emax (if sx then - r else r) e sx)
  | S754_finite _ _ _, S754_infinity _ => x
  | S754_zero _, S754_finite _ _ _ => x
  | S754_zero _, S754_infinity _ => x
  | _, _ => nan
  end.

(** [float(s)] for [[+-]digits[.digits]] *)
Definition digit (c : ascii) : option Z :=
  let n := nat_of_ascii c in
  if ((48 <=? n) && (n <=? 57))%nat then Some (Z.of_nat (n - 48)) else None.

Fixpoint read (s : string) (seen_dot : bool) (mant : Z) (scale ndig : nat)
  : option (Z * nat) :=
  match s with
  | EmptyString => if (ndig =? 0)%nat then None else Some (mant, scale)
  | String c s' =>
      match digit c with
      | Some d =>
          read s' seen_dot (10 * mant + d)
               (if seen_dot then S scale else scale) (S ndig)
      | None =>
          if Ascii.eqb c "." && negb seen_dot
          then read s' true mant scale ndig else None
      end
  end.

Definition float_of_string (s : string) : option float :=
  let '(neg, body) :=
    match s with
    | String c r =>
        if Ascii.eqb c "-" then (true, r)
        else if Ascii.eqb c "+" then (false, r) else (false, s)
    | EmptyString => (false, s)
    end in
  match read body false 0 0 0 with
  | Some (m, k) =>
      let v := (of_Z m / of_Z (10 ^ Z.of_nat k))%float in
      Some (if neg then (- v)%float else v)
  | None => None
  end.

Local Open Scope float_scope.

Definition pi_4 : float := 0.7853981633974483.
Definition pi_2 : float := 1.5707963267948966.
Definition pi3_4 : float := 2.356194490192345.
Definition pi_1 : float := 3.141592653589793.

(** is the sign bit set? *)
Definition signbit (x : float) : bool :=
  match Prim2SF x with
  | S754_zero s | S754_infinity s | S754_finite s _ _ => s
  | S754_nan => false
  end.

Definition with_sign (neg : bool) (x : float) : float := if neg then - x else x.

(** [atan2(y, x)] along the axes and the diagonals *)
Definition atan2 (y x : float) : float :=
  if negb (x =? x) || negb (y =? y) then nan
  else if y =? 0 then with_sign (signbit y) (if signbit x then pi_1 else 0)
  else if x =? 0 then with_sign (signbit y) pi_2
  else if abs y =? abs x
       then with_sign (signbit y) (if signbit x then pi3_4 else pi_4)
  else nan.

Definition hypot (x y : float) : float := sqrt (x * x + y * y).

(** [np.median]: the middle of the sorted values, or the mean of the two
    middle ones; NaN for an empty list. *)
Fixpoint insert (x : float) (l : list float) : list float :=
  match l with
  | [] => [x]
  | y :: t => if y <? x then y :: insert x t else x :: y :: t
  end.

Definition median (l : list float) : float :=
  let s := fold_right insert [] l in
  let n := List.length s in
  match n with
  | O => nan
  | _ => if Nat.even n
         then (nth (n / 2 - 1) s 0 + nth (n / 2) s 0) / 2
         else nth (n / 2) s 0
  end.

(** [P.mean(axis=0)] *)
Definition mean0 (P : list vec) : vec :=
  let n := of_Z (Z.of_nat (List.length P)) in
  (fold_left (fun a p => a + fst p) P 0 / n,
   fold_left (fun a p => a + snd p) P 0 / n).
End Num.

(** increasing order *)
Fixpoint insert_nat (x : nat) (l : list nat) : list nat :=
  match l with
  | [] => [x]
  | y :: t => if (y <? x)%nat then y :: insert_nat x t else x :: y :: t
  end.

Definition sort_nat (l : list nat) : list nat := fold_right insert_nat [] l.

(** what Shapely reports of a face: validity, area, bounds *)
Definition face : Type := (bool * float * (float * float * float * float))%type.

Definition RefLib : Lib := {|
  py_float := Num.float_of_string;
  py_round6 := Num.round6;
  re_findall_ML := fun _ => [];
  atan2 := Num.atan2;
  fmod := Num.fmod;
  hypot := Num.hypot;
  rng := MT.state;
  seed := MT.seed;
  random := MT.random;
  np_median := Num.median;
  np_mean0 := Num.mean0;
  np_svd_v0 := fun _ => Raise LinAlgError;
  polygon := face;
  shapely := None;
  is_valid := fun p => fst (fst p);
  area := fun p => snd (fst p);
  bounds := fun p => snd p;
  iter_ints := sort_nat;
  iter_pairs := fun l => l;
  iter_fs := fun p => p;
  sort_by_start := sort_iv;
  sort_by_start_perm := sort_iv_perm
|}.







(* ------------------------------------------------------------------------- *)
(** ** The properties, and the inputs of the concrete runs *)

(** The stripe pairs when the Pair-Grower is left, for the polylines of an
    invocation. *)
Definition final_pairs (L : Lib) (polys : list polyline) : res (list fs * outcome) :=
  let segs := flatten polys in
  stripe_pairs_of L segs (fst (rand_points_from L (seed L 42) segs)).

(** A stripe pair holds exactly two distinct segment indices. *)
Definition two_distinct (p : fs) : Prop :=
  exists a b : nat, a <> b /\ (p = [a; b] \/ p = [b; a]).

(** In how many stripe pairs does segment [i] appear? *)
Definition occurrences (i : nat) (stripe_pairs : list fs) : nat :=
  List.length (filter (mem i) stripe_pairs).

(** Two stripe pairs have a segment in common. *)
Definition share (p q : fs) : Prop := exists i : nat, In i p /\ In i q.

(** [hypot] does not look at the signs of its arguments. *)
Definition hypot_even (L : Lib) : Prop :=
  forall x y : float,
    hypot L (- x) y = hypot L x y /\ hypot L x (- y) = hypot L x y.


(** [identify] gets as far as line 488 with [unified_links]. *)
Definition reaches_polygoniser (L : Lib) (parsed : fromstring)
    (unified_links : list segment) : Prop :=
  exists thick_polylines : list polyline,
    _extract_polylines L parsed = Ok thick_polylines
    /\ thick_polylines <> []
    /\ let segs := flatten thick_polylines in
       unified_links_of L segs (fst (rand_points_from L (seed L 42) segs))
       = Ok unified_links.

(** The representatives [weld] has met after [seglist], starting from
    [uniques]. *)
Fixpoint uniques_after (L : Lib) (tol : float) (uniques : list vec)
    (seglist : list segment) : list vec :=
  match seglist with
  | [] => uniques
  | (A, B) :: rest =>
      let u1 := snd (canon L tol uniques A) in
      let u2 := snd (canon L tol u1 B) in
      uniques_after L tol u2 rest
  end.

(** Representatives of [weld] that are near each other are one and the
    same. *)
Definition separated (L : Lib) (tol : float) (uniques : list vec) : Prop :=
  forall c c' : vec,
    In c uniques -> In c' uniques -> near L tol c c' = true -> c = c'.

(** What holds of [new_pairs, used] all along lines 338-348: a new pair is
    not empty and is made of used segments, used segments were lonely, and no
    two new pairs have a segment in common. *)
Definition absorb_inv (lonely : list nat) (st : list fs * list nat) : Prop :=
  (forall p : fs, In p (fst st) -> p <> [] /\ forall i : nat, In i p -> In i (snd st))
  /\ (forall i : nat, In i (snd st) -> In i lonely)
  /\ (forall (p q : fs) (i : nat),
        In p (fst st) -> In q (fst st) -> In i p -> In i q -> p = q).

(** What holds of [stripe_pairs] all along the loop of the Pair-Grower: the
    seeded pairs are there, and two pairs with a segment in common are one
    pair, or both seeded. *)
Definition grow_inv (seeds stripe_pairs : list fs) : Prop :=
  incl seeds stripe_pairs
  /\ (forall (p q : fs) (i : nat),
        In p stripe_pairs -> In q stripe_pairs -> In i p -> In i q ->
        p = q \/ (In p seeds /\ In q seeds)).

(** Case analysis on the comparisons of exponents and mantissas. *)
Ltac cmp_cases :=
  repeat match goal with
         | H : context [Z.compare ?a ?b] |- _ =>
             destruct (Z.compare_spec a b); try discriminate
         | |- context [Z.compare ?a ?b] =>
             destruct (Z.compare_spec a b); try discriminate
         | H : context [Pos.compare ?a ?b] |- _ =>
             destruct (Pos.compare_spec a b); cbn [CompOpp] in *; try discriminate
         | |- context [Pos.compare ?a ?b] =>
             destruct (Pos.compare_spec a b); cbn [CompOpp] in *; try discriminate
         end.

Module Inputs.
Local Open Scope float_scope.
Local Open Scope string_scope.

(** [<polyline points="0,0 0,0" stroke-width="2"/>] *)
Definition dot_polyline : list polyline := [ [(0, 0); (0, 0)] ].

(** Three parallel wall faces, one above the other. *)
Definition walls3 : list polyline :=
  [ [(0, 0); (10, 0)]; [(0, 1); (10, 1)]; [(0, 2); (10, 2)] ].

(** The two faces of a wall, its end cap drawn as two halves, and a stub
    that leaves from the middle of the cap. *)
Definition capped_wall : list polyline :=
  [ [(0, 0); (10, 0)]; [(0, 1); (10, 1)];
    [(10, 0); (10, 0.5)]; [(10, 1); (10, 0.5)];
    [(10, 0.5); (15, 0.5)] ].

(** The same plan and one more wall, far away. *)
Definition capped_wall_and_far : list polyline :=
  capped_wall ++ [ [(100, 100); (110, 100)] ].

Definition line (x1 y1 x2 y2 : string) : element :=
  Element "line"
          [("x1", x1); ("y1", y1); ("x2", x2); ("y2", y2); ("stroke-width", "2")]
          [].

(** [capped_wall] as a document *)
Definition capped_wall_svg : element :=
  Element "svg" []
    [ line "0" "0" "10" "0"; line "0" "1" "10" "1";
      line "10" "0" "10" "0.5"; line "10" "1" "10" "0.5";
      line "10" "0.5" "15" "0.5" ].

(** [<svg stroke-width="2px"><line x1="0" y1="0" x2="10" y2="0"/></svg>] *)
Definition px_svg : element :=
  Element "svg" [("stroke-width", "2px")]
    [ Element "line" [("x1", "0"); ("y1", "0"); ("x2", "10"); ("y2", "0")] [] ].

(** [<svg><line x1="0" y1="0" x2="10" y2="0" stroke-width="2"/></svg>] *)
Definition one_wall_svg : element :=
  Element "svg" [] [ line "0" "0" "10" "0" ].

(** [<svg><line x1="0" y1="0" x2="10" y2="0" stroke-width="0.5"/></svg>] *)
Definition thin_svg : element :=
  Element "svg" []
    [ Element "line"
        [("x1", "0"); ("y1", "0"); ("x2", "10"); ("y2", "0"); ("stroke-width", "0.5")]
        [] ].
End Inputs.

(* ------------------------------------------------------------------------- *)
(** * Further properties: what they speak of *)

(** One case split on what the goal computes with. *)
Ltac break :=
  match goal with
  | |- context [bind ?m _] => destruct m eqn:?; cbn [bind]
  | |- context [if ?c then _ else _] => destruct c eqn:?
  | |- context [match ?x with _ => _ end] => destruct x eqn:?
  end.

(** ** Caster *)

(** [P0 = rand_points[idx]] (line 174) *)
Definition cast_P0 (rand_points : list vec) (idx : nat) : vec :=
  nth idx rand_points (0, 0)%float.

(** The two unit normals of lines 175-177 *)
Definition cast_normals (s : segment) : vec * vec :=
  let '((x1, y1), (x2, y2)) := s in
  let v := (x2 - x1, y2 - y1)%float in
  let v_norm := let n := V.norm v in if (n =? 0)%float then 1.0%float else n in
  (V.div (- snd v, fst v)%float v_norm, V.div (snd v, - fst v)%float v_norm).

(** A ray from [P0] along [d] meets another segment than [idx] at distance
    [t], in [P]. *)
Definition hit_other (segs : list segment) (idx : nat) (P0 d : vec)
    (t : float) (P : vec) : Prop :=
  exists (jdx : nat) (Q1 Q2 : vec),
    In (jdx, (Q1, Q2)) (enumerate segs) /\ jdx <> idx
    /\ intersect_ray_segment P0 d Q1 Q2 = Some (t, P).

(** Lines 181-190 for one segment [jdx] *)
Definition scan_step (idx : nat) (P0 d : vec) (best : float * option vec)
    (js : nat * segment) : float * option vec :=
  let '(jdx, (Q1, Q2)) := js in
  if (jdx =? idx)%nat then best
  else match intersect_ray_segment P0 d Q1 Q2 with
       | Some (t, P_hit) => if (t <? fst best)%float then (t, Some P_hit) else best
       | None => best
       end.

(** [best_pt] is where one of the two normals of [s] meets another segment,
    and no hit of either normal is nearer. *)
Definition nearest_hit (segs : list segment) (rand_points : list vec)
    (idx : nat) (s : segment) (best_pt : vec) : Prop :=
  let P0 := cast_P0 rand_points idx in
  let '(n1, n2) := cast_normals s in
  exists (d : vec) (t : float),
    (d = n1 \/ d = n2)
    /\ hit_other segs idx P0 d t best_pt
    /\ forall (d' : vec) (t' : float) (P' : vec),
         d' = n1 \/ d' = n2 ->
         hit_other segs idx P0 d' t' P' -> (t' <? t)%float = false.

(** ** Generator and indices *)

(** [n] draws from the generator *)
Fixpoint draws (L : Lib) (n : nat) (g : rng L) : rng L :=
  match n with
  | O => g
  | S n' => draws L n' (snd (random L g))
  end.

(** Every index of every pair is the index of a segment. *)
Definition in_range (n : nat) (stripe_pairs : list fs) : Prop :=
  forall (p : fs) (i : nat), In p stripe_pairs -> In i p -> i < n.

(** ** Weld, interval union, unpacking *)

(** Adjacent merged intervals are more than [tol] apart. *)
Fixpoint gaps_above (tol : float) (l : list (float * float)) : Prop :=
  match l with
  | u :: (v :: _) as rest => (fst v <=? snd u + tol)%float = false /\ gaps_above tol rest
  | _ => True
  end.

(** The endpoints of the segments, in the order [weld] meets them. *)
Definition endpoints (seglist : list segment) : list vec :=
  flat_map (fun s : segment => [fst s; snd s]) seglist.

(** [canon] along a list of points, from the representatives [uniques]. *)
Fixpoint canon_all (L : Lib) (tol : float) (uniques : list vec) (pts : list vec)
  : list vec :=
  match pts with
  | [] => []
  | p :: rest =>
      let (c, u) := canon L tol uniques p in
      c :: canon_all L tol u rest
  end.

(** Every point of [outs] is the point of [ins] at its place, or an earlier
    point of [ins] that was kept and is within the tolerance of it. *)
Definition replaced_by_earlier (L : Lib) (tol : float) (ins outs : list vec)
  : Prop :=
  List.length outs = List.length ins
  /\ forall i : nat,
       i < List.length ins ->
       nth i outs (0, 0)%float = nth i ins (0, 0)%float
       \/ exists j : nat,
            j < i
            /\ nth j outs (0, 0)%float = nth j ins (0, 0)%float
            /\ nth i outs (0, 0)%float = nth j ins (0, 0)%float
            /\ near L tol (nth i ins (0, 0)%float) (nth j ins (0, 0)%float) = true.

(** The runtime [L], with every frozenset enumerated the other way round. *)
Definition reversed_unpacking (L : Lib) : Lib := {|
  py_float := py_float L;
  py_round6 := py_round6 L;
  re_findall_ML := re_findall_ML L;
  atan2 := atan2 L;
  fmod := fmod L;
  hypot := hypot L;
  rng := rng L;
  seed := seed L;
  random := random L;
  np_median := np_median L;
  np_mean0 := np_mean0 L;
  np_svd_v0 := np_svd_v0 L;
  polygon := polygon L;
  shapely := shapely L;
  is_valid := is_valid L;
  area := area L;
  bounds := bounds L;
  iter_ints := iter_ints L;
  iter_pairs := iter_pairs L;
  iter_fs := fun p => rev (iter_fs L p);
  sort_by_start := sort_by_start L;
  sort_by_start_perm := sort_by_start_perm L
|}.

(** ** Union-find *)

(** [r] is the root that [k] steps along [parent] lead to from [i]. *)
Fixpoint root_in (parent : list nat) (k i r : nat) : Prop :=
  match k with
  | O => i = r /\ nth i parent 0 = i
  | S k' => nth i parent 0 <> i /\ root_in parent k' (nth i parent 0) r
  end.

Definition root_of (parent : list nat) (i r : nat) : Prop :=
  exists k : nat, root_in parent k i r.

(** [parent] is a forest over its indices: every entry is an index, and
    every index leads to a root. *)
Definition forest (parent : list nat) : Prop :=
  (forall i : nat, i < List.length parent -> nth i parent 0 < List.length parent)
  /\ (forall i : nat, i < List.length parent -> exists r : nat, root_of parent i r).

(** The nodes met on the [k] steps from [i]. *)
Fixpoint path (parent : list nat) (k i : nat) : list nat :=
  match k with
  | O => [i]
  | S k' => i :: path parent k' (nth i parent 0)
  end.

(** Index [idx] has its root among the keys of [clusters]. *)
Definition keyed (parent : list nat) (clusters : list (nat * list nat)) (idx : nat)
  : Prop :=
  exists r : nat, root_of parent idx r /\ In r (map fst clusters).

(** ** The ways a stage ends *)

(** What the skeleton stage may end with other than its links. *)
Definition skeleton_failure (L : Lib) {A : Type} (r : res A) : Prop :=
  match r with
  | Ok _ => True
  | Raise e => e = ValueError \/ exists M : list vec, np_svd_v0 L M = Raise e
  | OutOfFuel => exists M : list vec, np_svd_v0 L M = OutOfFuel
  end.

(** What [identify] may end with other than its rooms. *)
Definition library_failure (L : Lib) {A : Type} (r : res A) : Prop :=
  match r with
  | Ok _ => True
  | Raise e =>
      e = ValueError
      \/ (exists M : list vec, np_svd_v0 L M = Raise e)
      \/ (exists polygonize ls, shapely L = Some polygonize /\ polygonize ls = Raise e)
  | OutOfFuel =>
      (exists M : list vec, np_svd_v0 L M = OutOfFuel)
      \/ (exists polygonize ls, shapely L = Some polygonize /\ polygonize ls = OutOfFuel)
  end.

(** numpy's contract for [np.linalg.svd]: it returns or raises LinAlgError. *)
Definition svd_contract (L : Lib) : Prop :=
  forall M : list vec,
    np_svd_v0 L M <> OutOfFuel
    /\ forall e : exn, np_svd_v0 L M = Raise e -> e = LinAlgError.

(** ** More inputs *)

Module Samples.
Local Open Scope float_scope.
Local Open Scope string_scope.

(** [<line x1="0" y1="0" x2="10" y2="0" style="fill:none"/>] *)
Definition styled_line : element :=
  Element "line"
    [("x1", "0"); ("y1", "0"); ("x2", "10"); ("y2", "0"); ("style", "fill:none")]
    [].

(** [<svg><line ... style="fill:none"/></svg>] *)
Definition styled_svg : element := Element "svg" [] [ styled_line ].

(** The two faces of a wall, and a point on each. *)
Definition two_faces : list segment := [ ((0, 0), (10, 0)); ((0, 1), (10, 1)) ].
Definition two_points : list vec := [ (5, 0); (5, 1) ].

(** The segments of [Inputs.capped_wall] and the points drawn for them. *)
Definition capped_segs : list segment := flatten Inputs.capped_wall.
Definition capped_points : list vec :=
  fst (rand_points_from RefLib (seed RefLib 42) capped_segs).


(** Two trees: 1 under 0, and 3 under 2. *)
Definition two_trees : list nat := [0; 0; 2; 2]%nat.
End Samples.

(* ------------------------------------------------------------------------- *)
(** * Theorems *)

(** ** [identify] as a whole *)


(** C4: on a text that cannot be parsed because it cannot be encoded for
    the parser (a [str] with a lone surrogate), [identify] raises instead of
    returning the empty room list: [ET.fromstring] raises UnicodeEncodeError,
    a ValueError, and the [except] clause of line 74 names ParseError only. *)
Theorem unencodable_text_raises (L : Lib) (g : rng L) :
  _extract_polylines L UnicodeEncodeError = Raise ValueError
  /\ fst (identify L g UnicodeEncodeError) = Raise ValueError
  /\ fst (identify L g UnicodeEncodeError) <> Ok [].
Proof.
  split; [reflexivity | split; [reflexivity | discriminate]].
Qed.

(** X22: [identify] returns the empty room list when [ET.fromstring] raises
    ParseError (the text is not well-formed XML; the empty text is such a
    text), when the reader finds no thick polyline, and on an empty list of
    polylines. *)
Theorem identify_empty (L : Lib) (g : rng L) :
  fst (identify L g ParseError) = Ok []
  /\ (forall parsed : fromstring,
        _extract_polylines L parsed = Ok [] -> fst (identify L g parsed) = Ok [])
  /\ fst (identify_polylines L g []) = Ok [].
Proof.
  split; [reflexivity | split; [| reflexivity]].
  intros parsed H. unfold identify. rewrite H. reflexivity.
Qed.

Lemma identify_empty_witness :
  _extract_polylines RefLib (Parsed Inputs.thin_svg) = Ok []
  /\ fst (identify RefLib (MT.seed 0) (Parsed Inputs.thin_svg)) = Ok [].
Proof.
  split.
  - vm_compute. reflexivity.
  - apply (proj1 (proj2 (identify_empty RefLib (MT.seed 0)))).
    vm_compute. reflexivity.
Defined.

(** C9: [identify] raises ValueError, instead of returning a room list, on a
    document whose root carries a stroke width that [float()] rejects (such as
    [stroke-width="2px"]): line 92 is outside the [try] of lines 84-91, which
    catches IndexError only. *)
Theorem unparsable_stroke_width_raises (L : Lib) (g : rng L)
    (tag : string) (attrib : list (string * string)) (children : list element)
    (s : string) :
  attr_get "stroke-width" attrib = Some s ->
  Str.is_empty s = false ->
  Str.split_once "stroke-width" s = None ->
  py_float L s = None ->
  fst (identify L g (Parsed (Element tag attrib children))) = Raise ValueError.
Proof.
  intros Hget Hne Hsub Hfloat.
  assert (Hsw : stroke_width L attrib = Raise ValueError).
  { unfold stroke_width, stroke_width_text.
    rewrite Hget, Hne, Hsub, Hne. unfold float_of. rewrite Hfloat. reflexivity. }
  unfold identify, _extract_polylines.
  cbn [iter mapM]. unfold extract_element at 1. cbn [attrib_of].
  rewrite Hsw. reflexivity.
Qed.

Lemma unparsable_stroke_width_raises_witness :
  fst (identify RefLib (MT.seed 0) (Parsed Inputs.px_svg)) = Raise ValueError.
Proof.
  apply unparsable_stroke_width_raises with (s := "2px"%string);
    vm_compute; reflexivity.
Defined.

(** C10: when Shapely cannot be imported, [identify] returns the empty room
    list on every input with which it gets as far as the polygoniser. *)
Theorem no_shapely_no_rooms (L : Lib) (g : rng L) (parsed : fromstring)
    (unified_links : list segment) :
  shapely L = None ->
  reaches_polygoniser L parsed unified_links ->
  fst (identify L g parsed) = Ok [].
Proof.
  intros Hno (thick & Hex & Hne & Hlinks).
  unfold identify. rewrite Hex.
  destruct thick as [| poly thick]; [contradiction |].
  unfold identify_polylines.
  destruct (rand_points_from L (seed L 42) (flatten (poly :: thick)))
    as [rand_points g'] eqn:Hrp.
  cbv zeta in Hlinks. rewrite Hrp in Hlinks. cbn [fst] in Hlinks.
  rewrite Hlinks. cbn [bind]. unfold polygonise. rewrite Hno. reflexivity.
Qed.

Lemma no_shapely_no_rooms_witness :
  shapely RefLib = None
  /\ reaches_polygoniser RefLib (Parsed Inputs.one_wall_svg) []
  /\ fst (identify RefLib (MT.seed 0) (Parsed Inputs.one_wall_svg)) = Ok [].
Proof.
  assert (H : reaches_polygoniser RefLib (Parsed Inputs.one_wall_svg) []).
  { exists [ [(0, 0); (10, 0)]%float ]. split; [| split].
    - vm_compute. reflexivity.
    - discriminate.
    - vm_compute. reflexivity. }
  split; [reflexivity | split].
  - exact H.
  - exact (no_shapely_no_rooms RefLib (MT.seed 0) _ _ eq_refl H).
Defined.

(** ** Flattener *)

Lemma zip_consecutive_cons (a b : vec) (poly : polyline) :
  zip_consecutive (a :: b :: poly) = (a, b) :: zip_consecutive (b :: poly).
Proof. reflexivity. Qed.

Lemma in_zip_consecutive (poly : polyline) (s : segment) :
  In s (zip_consecutive poly) <->
  exists i : nat,
    S i < List.length poly /\ s = (nth i poly (0, 0)%float, nth (S i) poly (0, 0)%float).
Proof.
  induction poly as [| a [| b poly] IH].
  - split; [intros [] | intros (i & Hi & _); cbn in Hi; lia].
  - split; [intros [] | intros (i & Hi & _); cbn in Hi; lia].
  - rewrite zip_consecutive_cons. split.
    + intros [<- | Hin].
      * exists 0. split; [cbn; lia | reflexivity].
      * apply IH in Hin. destruct Hin as (i & Hi & ->).
        exists (S i). split; [cbn in *; lia | reflexivity].
    + intros ([| i] & Hi & ->).
      * left. reflexivity.
      * right. apply IH. exists i. split; [cbn in *; lia | reflexivity].
Qed.

(** C5, as the code has it: the Flattener drops nothing. Every consecutive
    point pair of every polyline is a segment, zero-length pairs included, and
    nothing else is. A zero-length segment is passed over later, by the
    Pair-Seeder (line 251): it never originates a stripe pair. *)
Theorem flattener_keeps_every_pair (polys : list polyline) (s : segment) :
  (In s (flatten polys) <->
   exists (poly : polyline) (i : nat),
     In poly polys /\ S i < List.length poly
     /\ s = (nth i poly (0, 0)%float, nth (S i) poly (0, 0)%float))
  /\ (forall (segs : list segment) (rand_points : list vec) (idxA : nat) (P1 : vec),
        (length (nth idxA segs seg0) =? 0)%float = true ->
        seed_pair segs rand_points idxA P1 = None).
Proof.
  split.
  - unfold flatten. rewrite in_flat_map. split.
    + intros (poly & Hpoly & Hs). apply in_zip_consecutive in Hs.
      destruct Hs as (i & Hi & ->). exists poly, i. auto.
    + intros (poly & i & Hpoly & Hi & ->). exists poly. split; [exact Hpoly |].
      apply in_zip_consecutive. exists i. auto.
  - intros segs rand_points idxA P1 Hzero. unfold seed_pair.
    destruct (find_idxB segs idxA P1) as [idxB |]; [| reflexivity].
    destruct (nth idxA segs seg0) as [[x1 y1] [x2 y2]].
    unfold length in Hzero. unfold V.norm at 1, V.dot at 1. cbn [fst snd].
    rewrite Hzero. reflexivity.
Qed.

Lemma flattener_keeps_every_pair_witness :
  (length (nth 0 (flatten Inputs.dot_polyline) seg0) =? 0)%float = true
  /\ seed_pair (flatten Inputs.dot_polyline) [(0, 0)%float] 0 (0, 0)%float = None.
Proof.
  split.
  - vm_compute. reflexivity.
  - apply (proj2 (flattener_keeps_every_pair Inputs.dot_polyline seg0)).
    vm_compute. reflexivity.
Defined.

(** C5, as the specification has it, fails: the polyline
    [points="0,0 0,0"] gives a segment, and its length is zero. *)
Lemma zero_length_segment_kept :
  ~ (forall s : segment,
       In s (flatten Inputs.dot_polyline) -> (0 <? length s)%float = true).
Proof.
  intros H. specialize (H ((0, 0), (0, 0))%float (or_introl eq_refl)).
  vm_compute in H. discriminate H.
Qed.

(** ** Sets as lists *)

Lemma mem_In (i : nat) (s : list nat) : mem i s = true <-> In i s.
Proof.
  unfold mem. rewrite existsb_exists. split.
  - intros (x & Hx & E). apply Nat.eqb_eq in E. subst. exact Hx.
  - intros H. exists i. split; [exact H | apply Nat.eqb_refl].
Qed.

Lemma mem_false (i : nat) (s : list nat) : mem i s = false <-> ~ In i s.
Proof.
  rewrite <- mem_In. destruct (mem i s); intuition congruence.
Qed.

Lemma fs_eqb_eq (p q : fs) : fs_eqb p q = true <-> p = q.
Proof.
  revert q. induction p as [| a p IH]; intros [| b q]; cbn; try (split; congruence).
  rewrite andb_true_iff, Nat.eqb_eq, IH. split.
  - intros [-> ->]. reflexivity.
  - intros H. injection H as -> ->. auto.
Qed.

Lemma fs_mem_In (p : fs) (s : list fs) : fs_mem p s = true <-> In p s.
Proof.
  unfold fs_mem. rewrite existsb_exists. split.
  - intros (x & Hx & E). apply fs_eqb_eq in E. subst. exact Hx.
  - intros H. exists p. split; [exact H | apply fs_eqb_eq; reflexivity].
Qed.

Lemma In_add_int (x i : nat) (s : list nat) : In x (add_int i s) <-> x = i \/ In x s.
Proof.
  unfold add_int. destruct (mem i s) eqn:E.
  - apply mem_In in E. split; [auto | intros [-> | H]; assumption].
  - rewrite in_app_iff. cbn. intuition congruence.
Qed.

Lemma In_add_fs (x p : fs) (s : list fs) : In x (add_fs p s) <-> x = p \/ In x s.
Proof.
  unfold add_fs. destruct (fs_mem p s) eqn:E.
  - apply fs_mem_In in E. split; [auto | intros [-> | H]; assumption].
  - rewrite in_app_iff. cbn. intuition congruence.
Qed.

Lemma In_union_ints (x : nat) (t s : list nat) :
  In x (union_ints s t) <-> In x s \/ In x t.
Proof.
  unfold union_ints. revert s. induction t as [| i t IH]; intros s; cbn.
  - tauto.
  - rewrite IH, In_add_int. intuition congruence.
Qed.

Lemma In_union_fs (x : fs) (t s : list fs) :
  In x (union_fs s t) <-> In x s \/ In x t.
Proof.
  unfold union_fs. revert s. induction t as [| p t IH]; intros s; cbn.
  - tauto.
  - rewrite IH, In_add_fs. intuition congruence.
Qed.

Lemma In_mk_fs (i a b : nat) : In i (mk_fs a b) <-> i = a \/ i = b.
Proof.
  unfold mk_fs. destruct (a =? b) eqn:E; [apply Nat.eqb_eq in E; subst |];
    [| destruct (a <? b)]; cbn; intuition congruence.
Qed.

Lemma mk_fs_not_nil (a b : nat) : mk_fs a b <> [].
Proof.
  unfold mk_fs. destruct (a =? b); [| destruct (a <? b)]; discriminate.
Qed.

Lemma In_paired (i : nat) (stripe_pairs : list fs) :
  In i (paired stripe_pairs) <-> exists p : fs, In p stripe_pairs /\ In i p.
Proof. unfold paired. rewrite in_concat. reflexivity. Qed.

Lemma In_ungrouped (segs : list segment) (stripe_pairs : list fs) (i : nat) :
  In i (ungrouped segs stripe_pairs)
  <-> i < List.length segs /\ ~ In i (paired stripe_pairs).
Proof.
  unfold ungrouped. rewrite filter_In, in_seq, negb_true_iff, mem_false. intuition lia.
Qed.

Lemma filter_length_lt {A : Type} (f f' : A -> bool) (l : list A) :
  (forall x, In x l -> f' x = true -> f x = true) ->
  (exists x, In x l /\ f x = true /\ f' x = false) ->
  List.length (filter f' l) < List.length (filter f l).
Proof.
  intros Himp (x & Hx & Hfx & Hf'x).
  induction l as [| a l IH]; [contradiction |].
  assert (Hle : forall l0 : list A,
             (forall y, In y l0 -> f' y = true -> f y = true) ->
             List.length (filter f' l0) <= List.length (filter f l0)).
  { induction l0 as [| b l0 IH0]; intros H0; [cbn; lia |].
    cbn. specialize (IH0 (fun y Hy => H0 y (or_intror Hy))).
    destruct (f' b) eqn:E'.
    - rewrite (H0 b (or_introl eq_refl) E'). cbn. lia.
    - destruct (f b); cbn; lia. }
  cbn. destruct Hx as [-> | Hx].
  - rewrite Hfx, Hf'x. cbn.
    specialize (Hle l (fun y Hy => Himp y (or_intror Hy))). lia.
  - specialize (IH (fun y Hy => Himp y (or_intror Hy)) Hx).
    destruct (f' a) eqn:E'.
    + rewrite (Himp a (or_introl eq_refl) E'). cbn. lia.
    + destruct (f a); cbn; lia.
Qed.

(** ** Pair-Seeder *)

Lemma find_idxB_other (segs : list segment) (idxA idxB : nat) (P1 : vec) :
  find_idxB segs idxA P1 = Some idxB -> idxB <> idxA.
Proof.
  unfold find_idxB. intros H.
  destruct (find _ (enumerate segs)) as [[j sj] |] eqn:Hfind; [| discriminate].
  injection H as <-. apply find_some in Hfind. destruct Hfind as [_ Hj].
  cbn [fst] in Hj. apply andb_true_iff in Hj. destruct Hj as [Hj _].
  apply negb_true_iff, Nat.eqb_neq in Hj. exact Hj.
Qed.

Lemma mk_fs_two_distinct (a b : nat) : a <> b -> two_distinct (mk_fs a b).
Proof.
  intros Hab. exists a, b. split; [exact Hab |]. unfold mk_fs.
  destruct (a =? b) eqn:E; [apply Nat.eqb_eq in E; contradiction |].
  destruct (a <? b); auto.
Qed.

Lemma seed_pair_two_distinct (segs : list segment) (rand_points : list vec)
    (idxA : nat) (P1 : vec) (p : fs) :
  seed_pair segs rand_points idxA P1 = Some p -> two_distinct p.
Proof.
  unfold seed_pair.
  destruct (find_idxB segs idxA P1) as [idxB |] eqn:HB; [| discriminate].
  apply find_idxB_other in HB.
  destruct (nth idxA segs seg0) as [[x1 y1] [x2 y2]].
  destruct (V.norm _ =? 0)%float; [discriminate |].
  destruct (V.norm _ <? EPS)%float; [discriminate |].
  destruct (nth idxB segs seg0) as [B1 B2].
  destruct (confirm _ _ _ _ _); [| discriminate].
  intros H. injection H as <-. apply mk_fs_two_distinct. auto.
Qed.

(** The part of C3 that holds: every seeded stripe pair has two distinct
    segment indices (line 240 skips [jdx == idxA]). *)
Lemma seeded_pairs_two_distinct (segs : list segment) (rand_points : list vec)
    (p : fs) :
  In p (seed_pairs segs rand_points) -> two_distinct p.
Proof.
  unfold seed_pairs.
  assert (H : forall (l : list (nat * vec)) (acc : list fs),
             (forall q, In q acc -> two_distinct q) ->
             forall q,
               In q (fold_left
                       (fun stripe_pairs (ip : nat * vec) =>
                          match seed_pair segs rand_points (fst ip) (snd ip) with
                          | Some p => add_fs p stripe_pairs
                          | None => stripe_pairs
                          end) l acc) ->
               two_distinct q).
  { induction l as [| ip l IH]; intros acc Hacc q Hq; [apply Hacc; exact Hq |].
    cbn [fold_left] in Hq. revert Hq. apply IH. clear q.
    intros q' Hq'.
    destruct (seed_pair segs rand_points (fst ip) (snd ip)) as [p' |] eqn:Hsp;
      [| apply Hacc; exact Hq'].
    apply In_add_fs in Hq'. destruct Hq' as [-> | Hq']; [| apply Hacc; exact Hq'].
    apply (seed_pair_two_distinct _ _ _ _ _ Hsp). }
  apply H. intros q [].
Qed.

(** ** Pair-Seeder and Pair-Grower on explicit plans *)

(** C6, as the specification has it, fails: of three parallel wall faces the
    middle one is the nearest hit of both others, the Pair-Seeder pairs it with
    each, and the Pair-Grower ends at once (no segment is left) with segment 1
    in two stripe pairs. *)
Lemma middle_wall_in_two_pairs :
  ~ (forall (final : list fs) (o : outcome) (i : nat),
       final_pairs RefLib Inputs.walls3 = Ok (final, o) -> occurrences i final <= 1).
Proof.
  intros H.
  specialize (H [[0; 1]; [1; 2]] Complete 1).
  assert (E : final_pairs RefLib Inputs.walls3 = Ok ([[0; 1]; [1; 2]], Complete)).
  { vm_compute. reflexivity. }
  specialize (H E). vm_compute in H. lia.
Qed.

(** C3 fails on the plan [capped_wall]: the seeded pair is [{0, 1}], the
    first turn of the Pair-Grower adds [{2, 3}] (the two halves of the cap),
    and the second finds the stub, segment 4, adjacent to both halves and
    parallel to itself: it adds [frozenset({4, 4})], a stripe pair of one
    index. The loop ends, and line 359 cannot unpack that pair. *)
Theorem grower_adds_pair_of_one_index :
  final_pairs RefLib Inputs.capped_wall = Ok ([[0; 1]; [2; 3]; [4]], Complete)
  /\ ~ two_distinct [4]
  /\ fst (identify RefLib (MT.seed 0) (Parsed Inputs.capped_wall_svg)) = Raise ValueError.
Proof.
  split; [vm_compute; reflexivity | split].
  - intros (a & b & Hab & [H | H]); injection H as H1; discriminate.
  - vm_compute. reflexivity.
Qed.

(** C8 fails on the plan [capped_wall_and_far]: after the pair of one index
    is added a segment is still ungrouped, and the third turn of the loop
    raises ValueError at line 320; the loop is left neither complete nor
    stalled. *)
Theorem grower_left_by_exception :
  grow_step RefLib (flatten Inputs.capped_wall_and_far) [[0; 1]; [2; 3]]
  = Ok (Continue [[0; 1]; [2; 3]; [4]])
  /\ grow_step RefLib (flatten Inputs.capped_wall_and_far) [[0; 1]; [2; 3]; [4]]
     = Raise ValueError
  /\ final_pairs RefLib Inputs.capped_wall_and_far = Raise ValueError.
Proof.
  split; [| split]; vm_compute; reflexivity.
Qed.

(** ** Pair-Grower *)

Section GrowerFacts.
Variable L : Lib.
Hypothesis Hiter : iter_ok L.
Variable segs : list segment.

Lemma In_iter_ints (l : list nat) (i : nat) : In i (iter_ints L l) <-> In i l.
Proof.
  split; apply Permutation_in;
    [| apply Permutation_sym]; apply (iter_ints_perm L Hiter).
Qed.

Lemma In_iter_pairs (l : list fs) (p : fs) : In p (iter_pairs L l) <-> In p l.
Proof.
  split; apply Permutation_in;
    [| apply Permutation_sym]; apply (iter_pairs_perm L Hiter).
Qed.

Lemma reds_adjacent_lonely (seg_idx : nat) (lonely : list nat) (j : nat) :
  In j (reds_adjacent_to L segs seg_idx lonely) -> In j lonely.
Proof.
  unfold reds_adjacent_to. destruct (endpts segs seg_idx) as [P Q].
  rewrite !In_union_ints.
  intros [[[] | H] | H]; apply filter_In in H; apply mem_In; tauto.
Qed.

Lemma try_r2_spec (lonely : list nat) (r1 : nat) (cand_B : list nat)
    (st : list fs * list nat) :
  absorb_inv lonely st ->
  ~ In r1 (snd st) -> In r1 lonely ->
  (forall r : nat, In r cand_B -> ~ In r (snd st) /\ In r lonely) ->
  absorb_inv lonely (try_r2 L segs r1 cand_B st)
  /\ (try_r2 L segs r1 cand_B st = st
      \/ In r1 (snd (try_r2 L segs r1 cand_B st))).
Proof.
  intros (Hused & Hlonely & Hdisj) Hr1 Hr1l HB. unfold try_r2.
  destruct (find (is_parallel L segs r1) cand_B) as [r2 |] eqn:Hfind.
  - apply find_some in Hfind. destruct Hfind as [Hr2 _].
    destruct (HB r2 Hr2) as [Hr2u Hr2l]. cbn [fst snd].
    split; [| right; rewrite !In_add_int; auto].
    unfold absorb_inv. cbn [fst snd]. split; [| split].
    + intros p Hp. apply In_add_fs in Hp. destruct Hp as [-> | Hp].
      * split; [apply mk_fs_not_nil |].
        intros i Hi. apply In_mk_fs in Hi. rewrite !In_add_int. tauto.
      * destruct (Hused p Hp) as [Hne Hin]. split; [exact Hne |].
        intros i Hi. rewrite !In_add_int. auto.
    + intros i Hi. rewrite !In_add_int in Hi.
      destruct Hi as [-> | [-> | Hi]]; auto.
    + intros p q i Hp Hq Hip Hiq.
      apply In_add_fs in Hp. apply In_add_fs in Hq.
      destruct Hp as [-> | Hp], Hq as [-> | Hq].
      * reflexivity.
      * exfalso. apply In_mk_fs in Hip.
        pose proof (proj2 (Hused q Hq) i Hiq) as Hi.
        destruct Hip as [-> | ->]; contradiction.
      * exfalso. apply In_mk_fs in Hiq.
        pose proof (proj2 (Hused p Hp) i Hip) as Hi.
        destruct Hiq as [-> | ->]; contradiction.
      * apply (Hdisj p q i); assumption.
  - split; [exact (conj Hused (conj Hlonely Hdisj)) | left; reflexivity].
Qed.

Lemma try_r1_spec (lonely cand_A cand_B : list nat) (st : list fs * list nat) :
  absorb_inv lonely st ->
  (forall r : nat, In r cand_A -> ~ In r (snd st) /\ In r lonely) ->
  (forall r : nat, In r cand_B -> ~ In r (snd st) /\ In r lonely) ->
  absorb_inv lonely (try_r1 L segs cand_A cand_B st).
Proof.
  intros Hinv HA HB. induction cand_A as [| r1 rest IH]; [exact Hinv |].
  cbn [try_r1].
  destruct (HA r1 (or_introl eq_refl)) as [Hr1 Hr1l].
  destruct (try_r2_spec lonely r1 cand_B st Hinv Hr1 Hr1l HB) as [Hinv' Hcase].
  destruct (mem r1 (snd (try_r2 L segs r1 cand_B st))) eqn:Hmem; [exact Hinv' |].
  apply mem_false in Hmem. destruct Hcase as [-> | Hin]; [| contradiction].
  apply IH. intros r Hr. apply HA. right. exact Hr.
Qed.

Lemma absorb_spec (lonely : list nat) (pairs : list fs)
    (st st' : list fs * list nat) :
  absorb_inv lonely st ->
  absorb L segs lonely pairs st = Ok st' ->
  absorb_inv lonely st'.
Proof.
  revert st. induction pairs as [| pr rest IH]; intros st Hinv H.
  - cbn in H. injection H as <-. exact Hinv.
  - cbn [absorb] in H. destruct (unpack2 L pr) as [[A B] | e |]; try discriminate.
    cbn [bind] in H. apply IH in H; [exact H |].
    assert (Hcand : forall X r,
               In r (filter (fun r => negb (mem r (snd st)))
                            (iter_ints L (reds_adjacent_to L segs X lonely))) ->
               ~ In r (snd st) /\ In r lonely).
    { intros X r Hr. apply filter_In in Hr. destruct Hr as [Hr Hu].
      apply negb_true_iff, mem_false in Hu. split; [exact Hu |].
      apply (proj1 (In_iter_ints _ _)) in Hr.
      apply (reds_adjacent_lonely X lonely r Hr). }
    apply try_r1_spec; [exact Hinv | apply Hcand | apply Hcand].
Qed.

Lemma unpack2_fuel (pr : fs) : unpack2 L pr <> OutOfFuel.
Proof.
  unfold unpack2. destruct (iter_fs L pr) as [| a [| b [| c l]]]; discriminate.
Qed.

Lemma is_connector_fuel (u : nat) (pairs : list fs) :
  is_connector L segs u pairs <> OutOfFuel.
Proof.
  induction pairs as [| pr rest IH]; [discriminate |].
  cbn [is_connector]. pose proof (unpack2_fuel pr) as Hu.
  destruct (unpack2 L pr) as [[A B] | e |]; [| discriminate | contradiction].
  cbn [bind]. destruct (endpts segs u), (endpts segs A), (endpts segs B).
  match goal with |- (if ?c then _ else _) <> _ => destruct c end;
    [discriminate | exact IH].
Qed.

Lemma absorb_fuel (lonely : list nat) (pairs : list fs) (st : list fs * list nat) :
  absorb L segs lonely pairs st <> OutOfFuel.
Proof.
  revert st. induction pairs as [| pr rest IH]; intros st; [discriminate |].
  cbn [absorb]. pose proof (unpack2_fuel pr) as Hu.
  destruct (unpack2 L pr) as [[A B] | e |]; [| discriminate | contradiction].
  cbn [bind]. apply IH.
Qed.

Lemma mapM_fuel {A B : Type} (f : A -> res B) (l : list A) :
  (forall a : A, f a <> OutOfFuel) -> mapM f l <> OutOfFuel.
Proof.
  intros Hf. induction l as [| a l IH]; [discriminate |].
  cbn [mapM]. specialize (Hf a).
  destruct (f a); [| discriminate | contradiction].
  cbn [bind]. destruct (mapM f l); [discriminate | discriminate | contradiction].
Qed.

Lemma grow_step_fuel (stripe_pairs : list fs) :
  grow_step L segs stripe_pairs <> OutOfFuel.
Proof.
  unfold grow_step.
  match goal with |- bind (mapM ?f ?l) _ <> _ =>
    pose proof (mapM_fuel f l) as Hm; destruct (mapM f l) as [flags | e |]
  end; [| discriminate | exfalso; apply Hm; [| reflexivity]].
  - cbn [bind].
    destruct (filter _ (ungrouped segs stripe_pairs)) as [| u lonely]; [discriminate |].
    match goal with |- bind ?m _ <> _ =>
      pose proof (absorb_fuel (u :: lonely) (iter_pairs L stripe_pairs) ([], [])) as Ha;
      destruct m as [st | e |]
    end; [| discriminate | contradiction].
    cbn [bind]. destruct (fst st); discriminate.
  - intros a. pose proof (is_connector_fuel a (iter_pairs L stripe_pairs)) as Hc.
    destruct (is_connector L segs a (iter_pairs L stripe_pairs));
      [discriminate | discriminate | contradiction].
Qed.

(** A turn that continues adds pairs made of segments that were ungrouped,
    and no two of the added pairs have a segment in common. *)
Lemma grow_step_continue (stripe_pairs stripe_pairs' : list fs) :
  grow_step L segs stripe_pairs = Ok (Continue stripe_pairs') ->
  exists new_pairs : list fs,
    new_pairs <> []
    /\ (forall p : fs, In p stripe_pairs' <-> In p stripe_pairs \/ In p new_pairs)
    /\ (forall p : fs, In p new_pairs ->
          p <> [] /\ forall i : nat, In i p -> In i (ungrouped segs stripe_pairs))
    /\ (forall (p q : fs) (i : nat),
          In p new_pairs -> In q new_pairs -> In i p -> In i q -> p = q).
Proof.
  unfold grow_step. intros H.
  destruct (mapM _ (iter_ints L (ungrouped segs stripe_pairs))) as [flags | e |];
    try discriminate.
  cbn [bind] in H.
  set (lonely := filter _ (ungrouped segs stripe_pairs)) in H.
  assert (Hsub : forall i, In i lonely -> In i (ungrouped segs stripe_pairs)).
  { intros i Hi. apply filter_In in Hi. tauto. }
  destruct lonely as [| u lonely'] eqn:El; [discriminate |]. rewrite <- El in *.
  clear El u lonely'.
  destruct (absorb L segs lonely (iter_pairs L stripe_pairs) ([], [])) as [st | e |] eqn:Habs;
    try discriminate.
  cbn [bind] in H.
  assert (Hinv : absorb_inv lonely st).
  { apply (absorb_spec lonely (iter_pairs L stripe_pairs) ([], []) st); [| exact Habs].
    split; [| split]; cbn; intros; contradiction. }
  destruct Hinv as (Hused & Hlonely & Hdisj).
  destruct st as [new_pairs used]. cbn [fst snd] in *.
  destruct new_pairs as [| p0 new_pairs]; [discriminate |].
  injection H as <-. exists (p0 :: new_pairs).
  split; [discriminate | split; [| split]].
  - intros p. rewrite In_union_fs, In_iter_pairs. reflexivity.
  - intros p Hp. destruct (Hused p Hp) as [Hne Hin]. split; [exact Hne |].
    intros i Hi. auto.
  - exact Hdisj.
Qed.

Lemma grow_step_decreases (stripe_pairs stripe_pairs' : list fs) :
  grow_step L segs stripe_pairs = Ok (Continue stripe_pairs') ->
  List.length (ungrouped segs stripe_pairs')
  < List.length (ungrouped segs stripe_pairs).
Proof.
  intros H. apply grow_step_continue in H.
  destruct H as (new_pairs & Hne & Hin & Hnew & _).
  unfold ungrouped. apply filter_length_lt.
  - intros x _. rewrite !negb_true_iff, !mem_false, !In_paired.
    intros Hx (p & Hp & Hxp). apply Hx. exists p. split; [apply Hin; auto | exact Hxp].
  - destruct new_pairs as [| p new_pairs]; [contradiction |].
    destruct (Hnew p (or_introl eq_refl)) as [Hpne Hpi].
    destruct p as [| i p]; [contradiction |].
    specialize (Hpi i (or_introl eq_refl)).
    exists i. unfold ungrouped in Hpi. apply filter_In in Hpi.
    destruct Hpi as [Hseq Hi]. split; [exact Hseq | split; [exact Hi |]].
    apply negb_false_iff, mem_In, In_paired.
    exists (i :: p). split; [apply Hin; right; left; reflexivity | left; reflexivity].
Qed.

Lemma grow_enough_fuel (fuel : nat) (stripe_pairs : list fs) :
  List.length (ungrouped segs stripe_pairs) < fuel ->
  grow L segs fuel stripe_pairs <> OutOfFuel.
Proof.
  revert stripe_pairs. induction fuel as [| fuel IH]; intros stripe_pairs Hlt; [lia |].
  cbn [grow]. pose proof (grow_step_fuel stripe_pairs) as Hf.
  pose proof (grow_step_decreases stripe_pairs) as Hd.
  destruct (grow_step L segs stripe_pairs) as [[o | stripe_pairs'] | e |];
    [discriminate | | discriminate | contradiction].
  cbn [bind]. apply IH. specialize (Hd stripe_pairs' eq_refl). lia.
Qed.

Lemma grow_keeps_inv (seeds : list fs) (fuel : nat) (stripe_pairs final : list fs)
    (o : outcome) :
  grow_inv seeds stripe_pairs ->
  grow L segs fuel stripe_pairs = Ok (final, o) ->
  grow_inv seeds final.
Proof.
  revert stripe_pairs. induction fuel as [| fuel IH]; intros stripe_pairs Hinv H;
    [discriminate |].
  cbn [grow] in H.
  destruct (grow_step L segs stripe_pairs) as [[o' | stripe_pairs'] | e |] eqn:Hstep;
    try discriminate; cbn [bind] in H.
  - injection H as <- <-. exact Hinv.
  - apply (IH stripe_pairs'); [| exact H].
    apply grow_step_continue in Hstep.
    destruct Hstep as (new_pairs & _ & Hin & Hnew & Hdisj).
    destruct Hinv as [Hincl Hsh]. split.
    + intros p Hp. apply Hin. left. apply Hincl. exact Hp.
    + assert (Hfresh : forall p q i, In p new_pairs -> In q stripe_pairs ->
                                     In i p -> In i q -> False).
      { intros p q i Hp Hq Hip Hiq.
        pose proof (proj2 (Hnew p Hp) i Hip) as Hu.
        apply In_ungrouped in Hu. destruct Hu as [_ Hu]. apply Hu.
        apply In_paired. exists q. auto. }
      intros p q i Hp Hq Hip Hiq. apply Hin in Hp. apply Hin in Hq.
      destruct Hp as [Hp | Hp], Hq as [Hq | Hq].
      * apply (Hsh p q i); assumption.
      * exfalso. apply (Hfresh q p i); assumption.
      * exfalso. apply (Hfresh p q i); assumption.
      * left. apply (Hdisj p q i); assumption.
Qed.

End GrowerFacts.

(** X8: the loop of the Pair-Grower is left within one turn more than there
    are segments: complete, stalled, or by an exception. *)
Theorem grower_terminates (L : Lib) (segs : list segment) (stripe_pairs : list fs) :
  iter_ok L -> grower L segs stripe_pairs <> OutOfFuel.
Proof.
  intros Hiter. unfold grower. apply grow_enough_fuel; [exact Hiter |].
  unfold ungrouped.
  pose proof (filter_length_le (fun i => negb (mem i (paired stripe_pairs)))
                (seq 0 (List.length segs))) as Hle.
  rewrite length_seq in Hle. lia.
Qed.

(** C6, as the code has it: when the Pair-Grower is left, the seeded pairs
    are still there, and a segment that is in two different stripe pairs is in
    two seeded pairs: a pair that the Pair-Grower added has no segment in
    common with any other pair. *)
Theorem grower_pairs_disjoint (L : Lib) (segs : list segment) (rand_points : list vec)
    (final : list fs) (o : outcome) :
  iter_ok L ->
  stripe_pairs_of L segs rand_points = Ok (final, o) ->
  incl (seed_pairs segs rand_points) final
  /\ forall p q : fs,
       In p final -> In q final -> share p q ->
       p = q \/ (In p (seed_pairs segs rand_points) /\ In q (seed_pairs segs rand_points)).
Proof.
  intros Hiter H. unfold stripe_pairs_of, grower in H.
  apply (grow_keeps_inv L Hiter segs (seed_pairs segs rand_points)) in H.
  - destruct H as [Hincl Hsh]. split; [exact Hincl |].
    intros p q Hp Hq (i & Hip & Hiq). apply (Hsh p q i); assumption.
  - split; [apply incl_refl | auto].
Qed.

Lemma insert_nat_perm (x : nat) (l : list nat) : Permutation (insert_nat x l) (x :: l).
Proof.
  induction l as [| y l IH]; [reflexivity |].
  cbn [insert_nat]. destruct (y <? x); [| reflexivity].
  rewrite IH. apply perm_swap.
Qed.

Lemma ref_iter_ok : iter_ok RefLib.
Proof.
  split; cbn; try reflexivity.
  intros l. induction l as [| x l IH]; [reflexivity |].
  cbn [sort_nat fold_right]. rewrite insert_nat_perm. apply perm_skip. exact IH.
Qed.

Lemma grower_pairs_disjoint_witness :
  iter_ok RefLib
  /\ final_pairs RefLib Inputs.capped_wall = Ok ([[0; 1]; [2; 3]; [4]], Complete)
  /\ incl [[0; 1]] [[0; 1]; [2; 3]; [4]].
Proof.
  assert (H : final_pairs RefLib Inputs.capped_wall
              = Ok ([[0; 1]; [2; 3]; [4]], Complete)) by (vm_compute; reflexivity).
  split; [exact ref_iter_ok | split; [exact H |]].
  exact (proj1 (grower_pairs_disjoint RefLib _ _ _ _ ref_iter_ok H)).
Defined.

(** ** Binary64 facts *)

Lemma binary_round_aux_opp (s : bool) (m e : Z) (l : location) :
  binary_round_aux prec emax (negb s) m e l
  = SFopp (binary_round_aux prec emax s m e l).
Proof.
  unfold binary_round_aux.
  destruct (shr_fexp prec emax m e l) as [mrs' e'].
  destruct (shr_fexp prec emax _ e' loc_Exact) as [mrs'' e''].
  destruct (shr_m mrs''); try reflexivity.
  destruct (Z.leb e'' (Z.sub emax prec)); reflexivity.
Qed.

Lemma binary_round_opp (s : bool) (m : positive) (e : Z) :
  binary_round prec emax (negb s) m e = SFopp (binary_round prec emax s m e).
Proof.
  unfold binary_round.
  destruct (shl_align m e _) as [mz ez]. apply binary_round_aux_opp.
Qed.

Lemma SFsub_swap (x y : spec_float) :
  SF64sub y x = SFopp (SF64sub x y) \/ SF64sub y x = SF64sub x y.
Proof.
  unfold SF64sub.
  destruct x as [sx | sx | | sx mx ex], y as [sy | sy | | sy my ey];
    try (destruct sx, sy; cbn; auto; fail);
    try (destruct sx; cbn; auto; fail);
    try (destruct sy; cbn; auto; fail);
    try (cbn; auto; fail).
  cbn [SFsub]. rewrite (Z.min_comm ey ex).
  set (a := cond_Zopp sx _). set (b := cond_Zopp sy _).
  replace (Z.sub b a) with (Z.opp (Z.sub a b)) by lia.
  destruct (Z.sub a b) as [| p | p]; cbn [Z.opp binary_normalize].
  - right. reflexivity.
  - left. apply (binary_round_opp false).
  - left. rewrite <- (binary_round_opp true). reflexivity.
Qed.

Lemma sub_swap (a b : float) :
  (b - a = - (a - b) \/ b - a = a - b)%float.
Proof.
  destruct (SFsub_swap (Prim2SF a) (Prim2SF b)) as [H | H].
  - left. apply Prim2SF_inj. rewrite opp_spec, !sub_spec. exact H.
  - right. apply Prim2SF_inj. rewrite !sub_spec. exact H.
Qed.

(** ** Weld *)

Section Weld.
Variable L : Lib.
Hypothesis Heven : hypot_even L.
Variable tol : float.

Lemma near_sym (p c : vec) : near L tol p c = near L tol c p.
Proof.
  unfold near. f_equal. symmetry.
  destruct (sub_swap (fst p) (fst c)) as [-> | ->];
    destruct (sub_swap (snd p) (snd c)) as [-> | ->];
    rewrite ?(proj1 (Heven _ _)), ?(proj2 (Heven _ _)); reflexivity.
Qed.

Lemma canon_spec (uniques : list vec) (pt : vec) :
  separated L tol uniques ->
  separated L tol (snd (canon L tol uniques pt))
  /\ incl uniques (snd (canon L tol uniques pt))
  /\ In (fst (canon L tol uniques pt)) (snd (canon L tol uniques pt)).
Proof.
  intros Hsep. unfold canon.
  destruct (find (near L tol pt) uniques) as [c |] eqn:Hfind; cbn [fst snd].
  - apply find_some in Hfind. repeat split; [exact Hsep | apply incl_refl | tauto].
  - assert (Hfar : forall c, In c uniques -> near L tol pt c = false)
      by (intros c; apply (find_none _ _ Hfind)).
    split; [| split].
    + intros c c' Hc Hc' Hnear.
      apply in_app_or in Hc. apply in_app_or in Hc'.
      destruct Hc as [Hc | [<- | []]], Hc' as [Hc' | [<- | []]].
      * apply Hsep; assumption.
      * rewrite near_sym, (Hfar c Hc) in Hnear. discriminate.
      * rewrite (Hfar c' Hc') in Hnear. discriminate.
      * reflexivity.
    + apply incl_appl, incl_refl.
    + apply in_or_app. right. left. reflexivity.
Qed.

Lemma canon_fixed (final uniques : list vec) (o : vec) :
  separated L tol final -> incl uniques final -> In o final ->
  fst (canon L tol uniques o) = o /\ incl (snd (canon L tol uniques o)) final.
Proof.
  intros Hsep Hincl Ho. unfold canon.
  destruct (find (near L tol o) uniques) as [c |] eqn:Hfind; cbn [fst snd].
  - apply find_some in Hfind. destruct Hfind as [Hc Hnear].
    split; [| exact Hincl]. symmetry. apply Hsep; auto.
  - split; [reflexivity |]. apply incl_app; [exact Hincl |].
    intros x [<- | []]. exact Ho.
Qed.

Lemma weld_from_spec (seglist : list segment) (uniques : list vec) :
  separated L tol uniques ->
  separated L tol (uniques_after L tol uniques seglist)
  /\ incl uniques (uniques_after L tol uniques seglist)
  /\ forall s : segment,
       In s (weld_from L tol uniques seglist) ->
       In (fst s) (uniques_after L tol uniques seglist)
       /\ In (snd s) (uniques_after L tol uniques seglist).
Proof.
  revert uniques. induction seglist as [| [A B] rest IH]; intros uniques Hsep.
  - cbn. repeat split; [exact Hsep | apply incl_refl | contradiction | contradiction].
  - cbn [uniques_after weld_from].
    destruct (canon_spec uniques A Hsep) as (Hs1 & Hi1 & Ha).
    destruct (canon L tol uniques A) as [a u1]. cbn [fst snd] in *.
    destruct (canon_spec u1 B Hs1) as (Hs2 & Hi2 & Hb).
    destruct (canon L tol u1 B) as [b u2]. cbn [fst snd] in *.
    destruct (IH u2 Hs2) as (Hs3 & Hi3 & Hout).
    split; [exact Hs3 | split].
    + eapply incl_tran; [exact Hi1 |]. eapply incl_tran; [exact Hi2 | exact Hi3].
    + intros s [<- | Hs]; [| apply Hout; exact Hs].
      cbn [fst snd]. split; apply Hi3; [apply Hi2; exact Ha | exact Hb].
Qed.

Lemma weld_from_fixed (final : list vec) (out : list segment) (uniques : list vec) :
  separated L tol final -> incl uniques final ->
  (forall s : segment, In s out -> In (fst s) final /\ In (snd s) final) ->
  weld_from L tol uniques out = out.
Proof.
  intros Hsep. revert uniques.
  induction out as [| [a b] out IH]; intros uniques Hincl Hout; [reflexivity |].
  cbn [weld_from].
  destruct (Hout (a, b) (or_introl eq_refl)) as [Ha Hb]. cbn [fst snd] in Ha, Hb.
  destruct (canon_fixed final uniques a Hsep Hincl Ha) as [E1 I1].
  destruct (canon L tol uniques a) as [a' u1]. cbn [fst snd] in *. subst a'.
  destruct (canon_fixed final u1 b Hsep I1 Hb) as [E2 I2].
  destruct (canon L tol u1 b) as [b' u2]. cbn [fst snd] in *. subst b'.
  f_equal. apply IH; [exact I2 |].
  intros s Hs. apply Hout. right. exact Hs.
Qed.

End Weld.

(** X17: after welding, two endpoints that are within the tolerance of each
    other are the same point. *)
Lemma welded_endpoints_separated (L : Lib) (tol : float) (seglist : list segment)
    (s s' : segment) (p q : vec) :
  hypot_even L ->
  In s (weld L tol seglist) -> In s' (weld L tol seglist) ->
  p = fst s \/ p = snd s -> q = fst s' \/ q = snd s' ->
  near L tol p q = true -> p = q.
Proof.
  intros Heven Hs Hs' Hp Hq Hnear. unfold weld in Hs, Hs'.
  assert (Hnil : separated L tol []) by (intros c c' []).
  destruct (weld_from_spec L Heven tol seglist [] Hnil) as (Hsep & _ & Hout).
  destruct (Hout s Hs) as [H1 H2]. destruct (Hout s' Hs') as [H1' H2'].
  apply Hsep; [| | exact Hnear].
  - destruct Hp as [-> | ->]; assumption.
  - destruct Hq as [-> | ->]; assumption.
Qed.

(** C7: [weld] is idempotent, for every list of segments and every
    tolerance ([hypot] is libm's: it does not look at signs). *)
Theorem weld_idempotent (L : Lib) (tol : float) (seglist : list segment) :
  hypot_even L ->
  weld L tol (weld L tol seglist) = weld L tol seglist.
Proof.
  intros Heven. unfold weld.
  assert (Hnil : separated L tol []) by (intros c c' []).
  destruct (weld_from_spec L Heven tol seglist [] Hnil) as (Hsep & _ & Hout).
  apply (weld_from_fixed L tol (uniques_after L tol [] seglist) (weld_from L tol [] seglist) [] Hsep);
    [intros x [] | exact Hout].
Qed.

Lemma mul_opp (x : float) : (- x * - x = x * x)%float.
Proof.
  apply Prim2SF_inj. rewrite !mul_spec, opp_spec.
  destruct (Prim2SF x) as [s | s | | s m e]; try reflexivity;
    destruct s; reflexivity.
Qed.

Lemma ref_hypot_even : hypot_even RefLib.
Proof.
  intros x y. cbn. unfold Num.hypot. rewrite !mul_opp. split; reflexivity.
Qed.

Lemma weld_idempotent_witness :
  hypot_even RefLib
  /\ weld RefLib 0.5 (weld RefLib 0.5 [((0, 0), (1, 0)); ((1.25, 0), (3, 3))]%float)
     = weld RefLib 0.5 [((0, 0), (1, 0)); ((1.25, 0), (3, 3))]%float.
Proof.
  split; [exact ref_hypot_even | exact (weld_idempotent RefLib _ _ ref_hypot_even)].
Defined.

(** ** The rooms *)

Local Open Scope float_scope.



(* ------------------------------------------------------------------------- *)
(** * Further properties *)



(** ** Reader *)

Lemma mapM_raise {A B : Type} (f : A -> res B) (P : exn -> Prop) :
  (forall a e', f a = Raise e' -> P e') ->
  forall (l : list A) (e : exn), mapM f l = Raise e -> P e.
Proof.
  intros Hf l e. induction l as [| a l IH]; [discriminate |].
  cbn [mapM]. destruct (f a) as [b | e' |] eqn:Ha; cbn [bind].
  - destruct (mapM f l) as [bs | e'' |]; cbn [bind]; try discriminate.
    intros H. injection H as <-. apply IH. reflexivity.
  - intros H. injection H as <-. apply (Hf a). exact Ha.
  - discriminate.
Qed.

Lemma mapM_length {A B : Type} (f : A -> res B) (l : list A) (bs : list B) :
  mapM f l = Ok bs -> List.length bs = List.length l.
Proof.
  revert bs. induction l as [| a l IH]; intros bs.
  - cbn. intros H. injection H as <-. reflexivity.
  - cbn [mapM]. destruct (f a) as [b | e' |]; cbn [bind]; try discriminate.
    destruct (mapM f l) as [bs' | e'' |]; cbn [bind]; try discriminate.
    intros H. injection H as <-. cbn. f_equal. apply IH. reflexivity.
Qed.

Lemma mapM_In {A B : Type} (f : A -> res B) (l : list A) (bs : list B) (b : B) :
  mapM f l = Ok bs -> In b bs -> exists a : A, In a l /\ f a = Ok b.
Proof.
  revert bs. induction l as [| a l IH]; intros bs.
  - cbn. intros H. injection H as <-. contradiction.
  - cbn [mapM]. destruct (f a) as [b' | e' |] eqn:Ha; cbn [bind]; try discriminate.
    destruct (mapM f l) as [bs' | e'' |]; cbn [bind]; try discriminate.
    intros H. injection H as <-. intros [<- | Hin].
    + exists a. split; [left; reflexivity | exact Ha].
    + destruct (IH bs' eq_refl Hin) as (a' & Ha' & Hf).
      exists a'. split; [right; exact Ha' | exact Hf].
Qed.

(** The first element that raises ends the loop. *)
Lemma mapM_some_raise {A B : Type} (f : A -> res B) (l : list A) (a : A) (e : exn) :
  In a l -> f a = Raise e -> (forall a', f a' <> OutOfFuel) ->
  exists e' : exn, mapM f l = Raise e'.
Proof.
  intros Hin Ha Hfuel. induction l as [| a0 l IH]; [contradiction |].
  cbn [mapM]. pose proof (Hfuel a0) as H0.
  destruct (f a0) as [b | e0 |] eqn:E0; cbn [bind];
    [| eexists; reflexivity | contradiction].
  destruct Hin as [-> | Hin]; [congruence |].
  destruct (IH Hin) as (e' & ->). exists e'. reflexivity.
Qed.

Lemma float_of_raise (L : Lib) (s : string) (e : exn) :
  float_of L s = Raise e -> e = ValueError.
Proof. unfold float_of. destruct (py_float L s); congruence. Qed.

Lemma float_of_fuel (L : Lib) (s : string) : float_of L s <> OutOfFuel.
Proof. unfold float_of. destruct (py_float L s); discriminate. Qed.

Lemma stroke_width_raise (L : Lib) (attrib : list (string * string)) (e : exn) :
  stroke_width L attrib = Raise e -> e = ValueError.
Proof.
  unfold stroke_width. destruct (Str.is_empty _); [discriminate |].
  apply float_of_raise.
Qed.

Lemma point_of_match_raise (L : Lib) (m : string * string) (e : exn) :
  bind (float_of L (fst m))
       (fun x => bind (float_of L (snd m)) (fun y => Ok (x, y))) = Raise e ->
  e = ValueError.
Proof.
  destruct (float_of L (fst m)) as [x | ex |] eqn:Hx; cbn [bind].
  - destruct (float_of L (snd m)) as [y | ey |] eqn:Hy; cbn [bind]; try discriminate.
    intros H. injection H as <-. apply (float_of_raise L _ _ Hy).
  - intros H. injection H as <-. apply (float_of_raise L _ _ Hx).
  - discriminate.
Qed.

Lemma point_of_match_fuel (L : Lib) (m : string * string) :
  bind (float_of L (fst m))
       (fun x => bind (float_of L (snd m)) (fun y => Ok (x, y))) <> OutOfFuel.
Proof.
  pose proof (float_of_fuel L (fst m)). pose proof (float_of_fuel L (snd m)).
  destruct (float_of L (fst m)); cbn [bind]; [| discriminate | contradiction].
  destruct (float_of L (snd m)); cbn [bind]; [discriminate | discriminate | contradiction].
Qed.

Lemma extract_element_raise (L : Lib) (t : float) (el : element) (e : exn) :
  extract_element L t el = Raise e -> e = ValueError.
Proof.
  unfold extract_element. repeat break; intros H; try discriminate H;
    injection H as <-;
    first
      [ eapply (mapM_raise (float_of L) (fun e => e = ValueError) (float_of_raise L));
        eassumption
      | eapply (mapM_raise _ (fun e => e = ValueError) (point_of_match_raise L));
        eassumption
      | eapply stroke_width_raise; eassumption ].
Qed.

Lemma extract_element_fuel (L : Lib) (t : float) (el : element) :
  extract_element L t el <> OutOfFuel.
Proof.
  assert (Hsw : stroke_width L (attrib_of el) <> OutOfFuel).
  { unfold stroke_width. destruct (Str.is_empty _); [discriminate |].
    apply float_of_fuel. }
  unfold extract_element. repeat break; try discriminate; intros _;
    first
      [ contradiction
      | eapply (mapM_fuel (float_of L)); [apply float_of_fuel | eassumption]
      | eapply (mapM_fuel _ _ (point_of_match_fuel L)); eassumption ].
Qed.







Lemma bad_width_anywhere (L : Lib) (root el : element) (e : exn) :
  In el (iter root) ->
  stroke_width L (attrib_of el) = Raise e ->
  _extract_polylines L (Parsed root) = Raise ValueError.
Proof.
  intros Hin Hw. unfold _extract_polylines.
  assert (Hel : extract_element L 1.5 el = Raise e).
  { unfold extract_element. rewrite Hw. reflexivity. }
  destruct (mapM_some_raise (extract_element L 1.5) (iter root) el e Hin Hel
              (extract_element_fuel L 1.5)) as (e' & Hm).
  rewrite Hm. cbn [bind]. f_equal.
  apply (mapM_raise (extract_element L 1.5) (fun e => e = ValueError)
           (extract_element_raise L 1.5) _ _ Hm).
Qed.

(** X2: an element anywhere in the document that has a non-empty [style]
    attribute without [stroke-width] in it, and no [stroke-width] attribute,
    makes [identify] raise ValueError when [float()] rejects the style text
    (as for [style="fill:none"]): line 84 takes the whole style text for the
    width when [split] finds no [stroke-width]. *)
Theorem style_without_stroke_width_raises (L : Lib) (g : rng L)
    (root el : element) (s : string) :
  In el (iter root) ->
  attr_get "stroke-width" (attrib_of el) = None ->
  attr_get "style" (attrib_of el) = Some s ->
  Str.is_empty s = false ->
  Str.split_once "stroke-width" s = None ->
  py_float L s = None ->
  fst (identify L g (Parsed root)) = Raise ValueError.
Proof.
  intros Hin Hsw Hstyle Hne Hsub Hfloat.
  assert (Hw : stroke_width L (attrib_of el) = Raise ValueError).
  { unfold stroke_width, stroke_width_text, attr_get_or.
    rewrite Hsw, Hstyle, Hsub, Hne. unfold float_of. rewrite Hfloat. reflexivity. }
  unfold identify. rewrite (bad_width_anywhere L root el ValueError Hin Hw). reflexivity.
Qed.

Lemma style_without_stroke_width_raises_witness :
  fst (identify RefLib (MT.seed 0) (Parsed Samples.styled_svg)) = Raise ValueError.
Proof.
  apply (style_without_stroke_width_raises RefLib (MT.seed 0) Samples.styled_svg
           Samples.styled_line "fill:none").
  - right. left. reflexivity.
  - reflexivity.
  - reflexivity.
  - reflexivity.
  - vm_compute. reflexivity.
  - vm_compute. reflexivity.
Defined.

Lemma pair_up_two (pts : list float) :
  4 <= List.length pts -> 2 <= List.length (pair_up pts).
Proof.
  destruct pts as [| a [| b [| c [| d pts]]]]; cbn; lia.
Qed.

Lemma extract_element_two_points (L : Lib) (t : float) (el : element)
    (l : list polyline) (poly : polyline) :
  extract_element L t el = Ok l -> In poly l -> 2 <= List.length poly.
Proof.
  unfold extract_element. repeat break; intros H; try discriminate H;
    injection H as <-; intros Hin; try contradiction;
    destruct Hin as [<- | []]; try (cbn; lia);
    first
      [ apply pair_up_two;
        match goal with
        | Hm : mapM (float_of _) _ = Ok _, Hl : Nat.ltb _ 4 = false |- _ =>
            apply Nat.ltb_ge in Hl; rewrite <- (mapM_length _ _ _ Hm) in Hl; exact Hl
        end
      | match goal with
        | Hm : mapM _ (re_findall_ML _ _) = Ok _, Hl : Nat.ltb _ 2 = false |- _ =>
            apply Nat.ltb_ge in Hl; rewrite <- (mapM_length _ _ _ Hm) in Hl; exact Hl
        end ].
Qed.

(** X3: every polyline the reader returns has two points or more, so a
    non-empty result of the reader gives the Flattener at least one segment. *)
Theorem thick_polylines_have_segments (L : Lib) (parsed : fromstring)
    (thick_polylines : list polyline) :
  _extract_polylines L parsed = Ok thick_polylines ->
  (forall poly : polyline, In poly thick_polylines -> 2 <= List.length poly)
  /\ (thick_polylines <> [] -> flatten thick_polylines <> []).
Proof.
  intros H.
  assert (Htwo : forall poly, In poly thick_polylines -> 2 <= List.length poly).
  { unfold _extract_polylines in H. destruct parsed as [root | |]; [| | discriminate].
    - destruct (mapM (extract_element L 1.5) (iter root)) as [ps | e |] eqn:Hm;
        cbn [bind] in H; try discriminate.
      injection H as <-. intros poly Hin. apply in_concat in Hin.
      destruct Hin as (l & Hl & Hin).
      destruct (mapM_In _ _ _ l Hm Hl) as (el & _ & Hel).
      apply (extract_element_two_points L 1.5 el l poly Hel Hin).
    - injection H as <-. intros poly []. }
  split; [exact Htwo |].
  destruct thick_polylines as [| poly rest]; [congruence |]. intros _.
  specialize (Htwo poly (or_introl eq_refl)).
  destruct poly as [| a [| b poly]]; cbn in Htwo; try lia.
  discriminate.
Qed.

Lemma thick_polylines_have_segments_witness :
  _extract_polylines RefLib (Parsed Inputs.one_wall_svg) = Ok [ [(0, 0); (10, 0)]%float ]
  /\ flatten [ [(0, 0); (10, 0)]%float ] <> [].
Proof.
  assert (H : _extract_polylines RefLib (Parsed Inputs.one_wall_svg)
              = Ok [ [(0, 0); (10, 0)]%float ]) by (vm_compute; reflexivity).
  split; [exact H |].
  apply (proj2 (thick_polylines_have_segments RefLib _ _ H)). discriminate.
Defined.

(** ** Caster *)

Local Open Scope float_scope.

Lemma SFltb_trans (x y z : spec_float) :
  SFltb x y = true -> SFltb y z = true -> SFltb x z = true.
Proof.
  unfold SFltb, SFcompare.
  destruct x as [sx | sx | | sx mx ex], y as [sy | sy | | sy my ey],
           z as [sz | sz | | sz mz ez];
    try discriminate; try reflexivity;
    try (destruct sx; try discriminate; try reflexivity);
    try (destruct sy; try discriminate; try reflexivity);
    try (destruct sz; try discriminate; try reflexivity);
    change (Pos.compare_cont Eq) with Pos.compare;
    intros Hxy Hyz; cmp_cases; subst; try reflexivity; try lia.
Qed.

Lemma SFltb_irrefl (x : spec_float) : SFltb x x = false.
Proof.
  unfold SFltb, SFcompare.
  destruct x as [sx | sx | | sx mx ex]; try reflexivity;
    destruct sx; try reflexivity;
    rewrite Z.compare_refl; change (Pos.compare_cont Eq) with Pos.compare;
    rewrite Pos.compare_refl; reflexivity.
Qed.


Lemma ltb_trans (x y z : float) :
  (x <? y) = true -> (y <? z) = true -> (x <? z) = true.
Proof. rewrite !ltb_spec. apply SFltb_trans. Qed.

Lemma ltb_irrefl (x : float) : (x <? x) = false.
Proof. rewrite ltb_spec. apply SFltb_irrefl. Qed.

(** Nothing below a new, lower bound was above the old one. *)
Lemma not_below_lower (t' t bt : float) :
  (t' <? bt) = false -> (t <? bt) = true -> (t' <? t) = false.
Proof.
  intros H1 H2. destruct (t' <? t) eqn:E; [| reflexivity].
  rewrite (ltb_trans _ _ _ E H2) in H1. discriminate.
Qed.

Lemma fold_left_cons {A B : Type} (f : A -> B -> A) (b : B) (l : list B) (a : A) :
  fold_left f (b :: l) a = fold_left f l (f a b).
Proof. reflexivity. Qed.

Lemma scan_fold (idx : nat) (P0 d : vec) (l : list (nat * segment))
    (seen : float -> Prop) (best : float * option vec) :
  (forall t', seen t' -> (t' <? fst best) = false) ->
  let best' := fold_left (scan_step idx P0 d) l best in
  (forall t', seen t' -> (t' <? fst best') = false)
  /\ (forall jdx Q1 Q2 t' P',
        In (jdx, (Q1, Q2)) l -> jdx <> idx ->
        intersect_ray_segment P0 d Q1 Q2 = Some (t', P') ->
        (t' <? fst best') = false)
  /\ (best' = best
      \/ exists jdx Q1 Q2 P,
           In (jdx, (Q1, Q2)) l /\ jdx <> idx
           /\ intersect_ray_segment P0 d Q1 Q2 = Some (fst best', P)
           /\ snd best' = Some P).
Proof.
  revert seen best. induction l as [| [jdx [Q1 Q2]] l IH]; intros seen best Hseen;
    cbv zeta.
  - cbn. split; [exact Hseen | split; [intros; contradiction | left; reflexivity]].
  - rewrite fold_left_cons.
    match goal with
    | |- context [fold_left _ l ?b] => remember b as b1 eqn:Eb1
    end.
    (* what the step did *)
    assert (Hstep :
      (forall t', seen t' -> (t' <? fst b1) = false)
      /\ (forall t' P', jdx <> idx ->
            intersect_ray_segment P0 d Q1 Q2 = Some (t', P') -> (t' <? fst b1) = false)
      /\ (b1 = best
          \/ exists P, jdx <> idx
               /\ intersect_ray_segment P0 d Q1 Q2 = Some (fst b1, P)
               /\ snd b1 = Some P)).
    { subst b1. unfold scan_step.
      destruct (jdx =? idx)%nat eqn:Ej.
      - apply Nat.eqb_eq in Ej.
        split; [exact Hseen | split; [intros; contradiction | left; reflexivity]].
      - apply Nat.eqb_neq in Ej.
        destruct (intersect_ray_segment P0 d Q1 Q2) as [[t P_hit] |] eqn:Eh.
        + destruct (t <? fst best) eqn:Et; cbn [fst snd].
          * split; [| split].
            -- intros t' Ht'. apply (not_below_lower t' t (fst best)); auto.
            -- intros t' P' _ H. injection H as <- <-. apply ltb_irrefl.
            -- right. exists P_hit. auto.
          * split; [exact Hseen | split; [| left; reflexivity]].
            intros t' P' _ H. injection H as <- <-. exact Et.
        + split; [exact Hseen | split; [intros; discriminate | left; reflexivity]]. }
    destruct Hstep as (Hs1 & Hs2 & Hs3).
    specialize (IH (fun t' => seen t' \/
                      (jdx <> idx /\ exists P', intersect_ray_segment P0 d Q1 Q2 = Some (t', P')))
                   b1).
    assert (Hpre : forall t',
               seen t' \/ (jdx <> idx /\ exists P',
                             intersect_ray_segment P0 d Q1 Q2 = Some (t', P')) ->
               (t' <? fst b1) = false).
    { intros t' [Ht' | (Hj & P' & Ht')]; [apply Hs1; exact Ht' | apply (Hs2 t' P' Hj Ht')]. }
    specialize (IH Hpre). cbv zeta in IH. destruct IH as (I1 & I2 & I3).
    split; [| split].
    + intros t' Ht'. apply I1. left. exact Ht'.
    + intros j q1 q2 t' P' [E | Hin] Hj Hh.
      * injection E as <- <- <-. apply I1. right. split; [exact Hj | exists P'; exact Hh].
      * apply (I2 j q1 q2 t' P' Hin Hj Hh).
    + destruct I3 as [-> | (j & q1 & q2 & P & Hin & Hj & Hh & Hsnd)].
      * destruct Hs3 as [-> | (P & Hj & Hh & Hsnd)]; [left; reflexivity |].
        right. exists jdx, Q1, Q2, P. split; [left; reflexivity | auto].
      * right. exists j, q1, q2, P. split; [right; exact Hin | auto].
Qed.

Lemma scan_normal_fold (segs : list segment) (idx : nat) (P0 d : vec)
    (best : float * option vec) :
  scan_normal segs idx P0 d best = fold_left (scan_step idx P0 d) (enumerate segs) best.
Proof. reflexivity. Qed.

(** X4: the point the Caster keeps for a segment is where one of its two
    normals, cast from the random point of the segment, meets another segment,
    and neither normal meets any other segment nearer than that. *)
Theorem cast_keeps_nearest_hit (segs : list segment) (rand_points : list vec)
    (idx : nat) (s : segment) (best_pt : vec) :
  cast segs rand_points idx s = Some best_pt ->
  nearest_hit segs rand_points idx s best_pt.
Proof.
  unfold nearest_hit, cast, cast_normals, cast_P0. destruct s as [[x1 y1] [x2 y2]].
  set (P0 := nth idx rand_points (0, 0)).
  set (v_norm := let n := V.norm (x2 - x1, y2 - y1) in if n =? 0 then 1.0 else n).
  cbn [fst snd].
  set (n1 := V.div (- (y2 - y1), x2 - x1) v_norm).
  set (n2 := V.div (y2 - y1, - (x2 - x1)) v_norm).
  rewrite !scan_normal_fold.
  pose proof (scan_fold idx P0 n1 (enumerate segs) (fun _ => False) (infinity, None)
                (fun t' F => match F with end)) as H1.
  cbv zeta in H1. destruct H1 as (_ & A2 & A3).
  set (b1 := fold_left (scan_step idx P0 n1) (enumerate segs) (infinity, None)) in *.
  assert (Hpre : forall t', (exists P', hit_other segs idx P0 n1 t' P') ->
                            (t' <? fst b1) = false).
  { intros t' (P' & j & q1 & q2 & Hin & Hj & Hh). apply (A2 j q1 q2 t' P' Hin Hj Hh). }
  pose proof (scan_fold idx P0 n2 (enumerate segs)
                (fun t' => exists P', hit_other segs idx P0 n1 t' P') b1 Hpre) as H2.
  cbv zeta in H2. destruct H2 as (B1 & B2 & B3).
  set (b2 := fold_left (scan_step idx P0 n2) (enumerate segs) b1) in *.
  intros Hres.
  assert (Hall : forall d' t' P', d' = n1 \/ d' = n2 ->
                   hit_other segs idx P0 d' t' P' -> (t' <? fst b2) = false).
  { intros d' t' P' [-> | ->] Hh.
    - apply B1. exists P'. exact Hh.
    - destruct Hh as (j & q1 & q2 & Hin & Hj & Hh). apply (B2 j q1 q2 t' P' Hin Hj Hh). }
  destruct B3 as [E | (j & q1 & q2 & P & Hin & Hj & Hh & Hsnd)].
  - rewrite E in Hres, Hall.
    destruct A3 as [E1 | (j & q1 & q2 & P & Hin & Hj & Hh & Hsnd)].
    + rewrite E1 in Hres. discriminate.
    + rewrite Hsnd in Hres. injection Hres as <-.
      exists n1, (fst b1). split; [left; reflexivity | split; [| exact Hall]].
      exists j, q1, q2. auto.
  - rewrite Hsnd in Hres. injection Hres as <-.
    exists n2, (fst b2). split; [right; reflexivity | split; [| exact Hall]].
    exists j, q1, q2. auto.
Qed.

Lemma cast_keeps_nearest_hit_witness :
  cast Samples.two_faces Samples.two_points 0 ((0, 0), (10, 0)) = Some (5, 1)
  /\ nearest_hit Samples.two_faces Samples.two_points 0 ((0, 0), (10, 0)) (5, 1).
Proof.
  assert (H : cast Samples.two_faces Samples.two_points 0 ((0, 0), (10, 0))
              = Some (5, 1)) by (vm_compute; reflexivity).
  split; [exact H | exact (cast_keeps_nearest_hit _ _ _ _ _ H)].
Defined.

(** X5: a drawing of one segment seeds no stripe pair, wherever its random
    point lies: the Caster leaves the segment itself out. *)
Theorem lone_segment_seeds_nothing (s : segment) (rand_points : list vec) :
  seed_pairs [s] rand_points = [].
Proof.
  unfold seed_pairs, pairs_dict.
  change (enumerate [s]) with [(0%nat, s)]. cbn [flat_map fst snd].
  assert (Hcast : cast [s] rand_points 0 s = None).
  { unfold cast. destruct s as [[x1 y1] [x2 y2]].
    unfold scan_normal. change (enumerate [((x1, y1), (x2, y2))])
      with [(0%nat, ((x1, y1), (x2, y2)))].
    reflexivity. }
  rewrite Hcast. reflexivity.
Qed.

Local Close Scope float_scope.


(** ** Indices *)

Lemma In_enumerate {A : Type} (l : list A) (i : nat) (a : A) :
  In (i, a) (enumerate l) -> i < List.length l.
Proof.
  unfold enumerate. intros H. apply in_combine_l in H. apply in_seq in H. lia.
Qed.

Lemma find_idxB_range (segs : list segment) (idxA idxB : nat) (P1 : vec) :
  find_idxB segs idxA P1 = Some idxB -> idxB < List.length segs.
Proof.
  unfold find_idxB. intros H.
  destruct (find _ (enumerate segs)) as [[j sj] |] eqn:Hfind; [| discriminate].
  injection H as <-. apply find_some in Hfind. destruct Hfind as [Hin _].
  apply (In_enumerate segs j sj Hin).
Qed.

Lemma In_pairs_dict (segs : list segment) (rand_points : list vec) (ip : nat * vec) :
  In ip (pairs_dict segs rand_points) -> fst ip < List.length segs.
Proof.
  unfold pairs_dict. rewrite in_flat_map. intros ([j s] & Hin & H). cbn [fst snd] in H.
  destruct (cast segs rand_points j s) as [best_pt |]; [| contradiction].
  destruct H as [<- | []]. apply (In_enumerate segs j s Hin).
Qed.

Lemma seed_pair_range (segs : list segment) (rand_points : list vec)
    (idxA : nat) (P1 : vec) (p : fs) (i : nat) :
  idxA < List.length segs ->
  seed_pair segs rand_points idxA P1 = Some p -> In i p -> i < List.length segs.
Proof.
  intros HA. unfold seed_pair.
  destruct (find_idxB segs idxA P1) as [idxB |] eqn:HB; [| discriminate].
  apply find_idxB_range in HB.
  destruct (nth idxA segs seg0) as [[x1 y1] [x2 y2]].
  destruct (V.norm _ =? 0)%float; [discriminate |].
  destruct (V.norm _ <? EPS)%float; [discriminate |].
  destruct (nth idxB segs seg0) as [B1 B2].
  destruct (confirm _ _ _ _ _); [| discriminate].
  intros H. injection H as <-. rewrite In_mk_fs. intros [-> | ->]; assumption.
Qed.

Lemma seeded_pairs_in_range (segs : list segment) (rand_points : list vec) :
  in_range (List.length segs) (seed_pairs segs rand_points).
Proof.
  intros p i Hp. revert i. revert Hp. unfold seed_pairs.
  assert (H : forall (l : list (nat * vec)) (acc : list fs),
             (forall ip, In ip l -> fst ip < List.length segs) ->
             in_range (List.length segs) acc ->
             in_range (List.length segs)
               (fold_left
                  (fun stripe_pairs (ip : nat * vec) =>
                     match seed_pair segs rand_points (fst ip) (snd ip) with
                     | Some p => add_fs p stripe_pairs
                     | None => stripe_pairs
                     end) l acc)).
  { induction l as [| ip l IH]; intros acc Hl Hacc; [exact Hacc |].
    cbn [fold_left]. apply IH; [intros ip' Hip'; apply Hl; right; exact Hip' |].
    destruct (seed_pair segs rand_points (fst ip) (snd ip)) as [p' |] eqn:Hsp;
      [| exact Hacc].
    intros q i Hq Hi. apply In_add_fs in Hq. destruct Hq as [-> | Hq].
    - apply (seed_pair_range segs rand_points (fst ip) (snd ip) p' i
               (Hl ip (or_introl eq_refl)) Hsp Hi).
    - apply (Hacc q i Hq Hi). }
  intros Hp i Hi.
  apply (H (pairs_dict segs rand_points) [] (In_pairs_dict segs rand_points)
           (fun q i F => match F with end) p i Hp Hi).
Qed.

(** X6: every pair of the Pair-Seeder holds two different indices, and both
    are indices of segments. *)
Theorem seeded_pairs_valid (segs : list segment) (rand_points : list vec) (p : fs) :
  In p (seed_pairs segs rand_points) ->
  two_distinct p /\ forall i : nat, In i p -> i < List.length segs.
Proof.
  intros Hp. split; [apply (seeded_pairs_two_distinct segs rand_points p Hp) |].
  intros i Hi. apply (seeded_pairs_in_range segs rand_points p i Hp Hi).
Qed.

Lemma seeded_pairs_valid_witness :
  In [0; 1] (seed_pairs Samples.capped_segs Samples.capped_points)
  /\ two_distinct [0; 1]
  /\ forall i : nat, In i [0; 1] -> i < List.length Samples.capped_segs.
Proof.
  assert (H : In [0; 1] (seed_pairs Samples.capped_segs Samples.capped_points))
    by (vm_compute; left; reflexivity).
  split; [exact H | exact (seeded_pairs_valid _ _ _ H)].
Defined.

Lemma grow_in_range (L : Lib) (segs : list segment) (fuel : nat)
    (stripe_pairs final : list fs) (o : outcome) :
  iter_ok L ->
  in_range (List.length segs) stripe_pairs ->
  grow L segs fuel stripe_pairs = Ok (final, o) ->
  in_range (List.length segs) final.
Proof.
  intros Hiter. revert stripe_pairs.
  induction fuel as [| fuel IH]; intros stripe_pairs Hr H; [discriminate |].
  cbn [grow] in H.
  destruct (grow_step L segs stripe_pairs) as [[o' | stripe_pairs'] | e |] eqn:Hstep;
    try discriminate; cbn [bind] in H.
  - injection H as <- <-. exact Hr.
  - apply (IH stripe_pairs'); [| exact H].
    apply (grow_step_continue L Hiter) in Hstep.
    destruct Hstep as (new_pairs & _ & Hin & Hnew & _).
    intros p i Hp Hi. apply Hin in Hp. destruct Hp as [Hp | Hp].
    + apply (Hr p i Hp Hi).
    + pose proof (proj2 (Hnew p Hp) i Hi) as Hu. apply In_ungrouped in Hu. tauto.
Qed.

(** X7: when the Pair-Grower is left, every index in every stripe pair is
    the index of a segment, so [endpts[A]] and [endpts[B]] of lines 320-321
    and 360-361 are never out of range. *)
Theorem final_pairs_in_range (L : Lib) (segs : list segment) (rand_points : list vec)
    (final : list fs) (o : outcome) :
  iter_ok L ->
  stripe_pairs_of L segs rand_points = Ok (final, o) ->
  in_range (List.length segs) final.
Proof.
  intros Hiter H. unfold stripe_pairs_of, grower in H.
  apply (grow_in_range L segs _ _ final o Hiter) in H; [exact H |].
  apply seeded_pairs_in_range.
Qed.

Lemma final_pairs_in_range_witness :
  iter_ok RefLib
  /\ stripe_pairs_of RefLib Samples.capped_segs Samples.capped_points
     = Ok ([[0; 1]; [2; 3]; [4]], Complete)
  /\ in_range 5 [[0; 1]; [2; 3]; [4]].
Proof.
  assert (H : stripe_pairs_of RefLib Samples.capped_segs Samples.capped_points
              = Ok ([[0; 1]; [2; 3]; [4]], Complete)) by (vm_compute; reflexivity).
  split; [exact ref_iter_ok | split; [exact H |]].
  exact (final_pairs_in_range RefLib _ _ _ _ ref_iter_ok H).
Defined.

(** The capped wall and its seeded pair. *)
Lemma grower_terminates_witness :
  iter_ok RefLib /\ grower RefLib Samples.capped_segs [[0; 1]] <> OutOfFuel.
Proof.
  split; [exact ref_iter_ok |].
  exact (grower_terminates RefLib Samples.capped_segs [[0; 1]] ref_iter_ok).
Defined.

(** ** No seeded pair *)

Lemma iter_pairs_nil (L : Lib) : iter_ok L -> iter_pairs L [] = [].
Proof.
  intros Hiter. apply Permutation_nil. apply Permutation_sym.
  apply (iter_pairs_perm L Hiter).
Qed.

Lemma mapM_not_connector (L : Lib) (segs : list segment) (l : list nat) :
  mapM (fun u => bind (is_connector L segs u []) (fun c => Ok (u, c))) l
  = Ok (map (fun u => (u, false)) l).
Proof.
  induction l as [| u l IH]; [reflexivity |].
  cbn [mapM map is_connector bind] in *. rewrite IH. reflexivity.
Qed.

Lemma filter_all {A : Type} (f : A -> bool) (l : list A) :
  (forall a, In a l -> f a = true) -> filter f l = l.
Proof.
  induction l as [| a l IH]; intros H; [reflexivity |].
  cbn. rewrite (H a (or_introl eq_refl)). f_equal.
  apply IH. intros b Hb. apply H. right. exact Hb.
Qed.

Lemma grower_nil (L : Lib) (segs : list segment) :
  iter_ok L ->
  grower L segs []
  = Ok ([], match segs with [] => Complete | _ :: _ => Stalled end).
Proof.
  intros Hiter. unfold grower. cbn [grow]. unfold grow_step.
  rewrite (iter_pairs_nil L Hiter), mapM_not_connector. cbn [bind].
  assert (Hconn : forall l : list nat,
             map fst (filter snd (map (fun u : nat => (u, false)) l)) = []).
  { induction l as [| u l IH]; [reflexivity | exact IH]. }
  rewrite Hconn.
  assert (Hung : ungrouped segs [] = seq 0 (List.length segs)).
  { unfold ungrouped. apply filter_all. reflexivity. }
  rewrite Hung, filter_all by reflexivity.
  destruct segs as [| s segs]; reflexivity.
Qed.

Lemma skeleton_nil (L : Lib) (segs : list segment) :
  iter_ok L -> skeleton L segs [] = Ok [].
Proof.
  intros Hiter. unfold skeleton, midpoint_lines.
  rewrite (iter_pairs_nil L Hiter). reflexivity.
Qed.

(** X9: when the Pair-Seeder finds no pair, the Pair-Grower adds none and
    the skeleton has no link: [identify] hands the polygoniser the empty
    list of links. *)
Theorem no_seed_no_links (L : Lib) (g : rng L) (polys : list polyline) :
  iter_ok L ->
  polys <> [] ->
  (let segs := flatten polys in
   seed_pairs segs (fst (rand_points_from L (seed L 42) segs)) = []) ->
  fst (identify_polylines L g polys) = polygonise L [].
Proof.
  intros Hiter Hne Hseed. cbv zeta in Hseed.
  destruct polys as [| poly polys]; [contradiction |].
  unfold identify_polylines.
  destruct (rand_points_from L (seed L 42) (flatten (poly :: polys)))
    as [rand_points g'].
  cbn [fst] in *. unfold unified_links_of, stripe_pairs_of.
  rewrite Hseed, (grower_nil L _ Hiter). cbn [bind fst].
  rewrite (skeleton_nil L _ Hiter). reflexivity.
Qed.

Lemma no_seed_no_links_witness :
  iter_ok RefLib
  /\ fst (identify_polylines RefLib (MT.seed 0) [ [(0, 0); (10, 0)]%float ])
     = polygonise RefLib [].
Proof.
  split; [exact ref_iter_ok |].
  apply (no_seed_no_links RefLib (MT.seed 0) [ [(0, 0); (10, 0)]%float ] ref_iter_ok).
  - discriminate.
  - vm_compute. reflexivity.
Defined.

(** ** The generator *)

Lemma rand_points_from_spec (L : Lib) (segs : list segment) (g : rng L) :
  List.length (fst (rand_points_from L g segs)) = List.length segs
  /\ snd (rand_points_from L g segs) = draws L (List.length segs) g.
Proof.
  revert g. induction segs as [| [[x1 y1] [x2 y2]] segs IH]; intros g; [split; reflexivity |].
  cbn [rand_points_from]. destruct (random L g) as [t g1] eqn:Hr.
  specialize (IH g1). destruct (rand_points_from L g1 segs) as [ps g2].
  cbn [fst snd List.length draws] in *. rewrite Hr. cbn [snd].
  destruct IH as [-> ->]. split; reflexivity.
Qed.

(** X10: [identify] leaves the process-wide generator as it found it when
    there is no thick polyline, and otherwise in the state that
    [random.seed(42)] and one draw per segment give, whatever state it was
    in before. *)
Theorem identify_reseeds_generator (L : Lib) (g : rng L) (polys : list polyline) :
  snd (identify_polylines L g polys)
  = match polys with
    | [] => g
    | _ :: _ => draws L (List.length (flatten polys)) (seed L 42)
    end.
Proof.
  destruct polys as [| poly polys]; [reflexivity |].
  unfold identify_polylines.
  pose proof (rand_points_from_spec L (flatten (poly :: polys)) (seed L 42)) as [_ H].
  destruct (rand_points_from L (seed L 42) (flatten (poly :: polys))) as [rp g'].
  exact H.
Qed.


(** ** Weld *)

Lemma endpoints_weld_from (L : Lib) (tol : float) (seglist : list segment)
    (uniques : list vec) :
  endpoints (weld_from L tol uniques seglist)
  = canon_all L tol uniques (endpoints seglist).
Proof.
  revert uniques. induction seglist as [| [A B] rest IH]; intros uniques; [reflexivity |].
  cbn [weld_from endpoints flat_map fst snd app canon_all].
  destruct (canon L tol uniques A) as [a u1].
  destruct (canon L tol u1 B) as [b u2].
  cbn [endpoints flat_map fst snd app]. f_equal. f_equal. apply IH.
Qed.

Lemma weld_from_length (L : Lib) (tol : float) (seglist : list segment)
    (uniques : list vec) :
  List.length (weld_from L tol uniques seglist) = List.length seglist.
Proof.
  revert uniques. induction seglist as [| [A B] rest IH]; intros uniques; [reflexivity |].
  cbn [weld_from].
  destruct (canon L tol uniques A) as [a u1].
  destruct (canon L tol u1 B) as [b u2].
  cbn [List.length]. f_equal. apply IH.
Qed.

(** From the representatives [uniques]: a point is kept, or replaced by a
    point within the tolerance that is one of [uniques] or an earlier point
    that was kept. *)
Lemma canon_all_spec (L : Lib) (tol : float) (pts : list vec) :
  forall uniques : list vec,
    List.length (canon_all L tol uniques pts) = List.length pts
    /\ forall i : nat,
         i < List.length pts ->
         let out := nth i (canon_all L tol uniques pts) (0, 0)%float in
         out = nth i pts (0, 0)%float
         \/ (near L tol (nth i pts (0, 0)%float) out = true
             /\ (In out uniques
                 \/ exists j : nat,
                      j < i
                      /\ nth j (canon_all L tol uniques pts) (0, 0)%float
                         = nth j pts (0, 0)%float
                      /\ out = nth j pts (0, 0)%float)).
Proof.
  induction pts as [| p rest IH]; intros uniques.
  - split; [reflexivity | intros i Hi; cbn in Hi; lia].
  - cbn [canon_all]. unfold canon.
    destruct (find (near L tol p) uniques) as [c |] eqn:Hfind.
    + destruct (IH uniques) as [Hlen Hall].
      split; [cbn [List.length]; f_equal; exact Hlen |].
      intros [| i] Hi; cbv zeta; cbn [nth].
      * right. apply find_some in Hfind. tauto.
      * cbn [List.length] in Hi.
        destruct (Hall i (proj2 (Nat.succ_lt_mono _ _) Hi)) as [E | (Hn & [Hu | (j & Hj & E1 & E2)])].
        -- left. exact E.
        -- right. split; [exact Hn | left; exact Hu].
        -- right. split; [exact Hn | right]. exists (S j).
           split; [lia | cbn [nth]; split; assumption].
    + destruct (IH (uniques ++ [p])) as [Hlen Hall].
      split; [cbn [List.length]; f_equal; exact Hlen |].
      intros [| i] Hi; cbv zeta; cbn [nth].
      * left. reflexivity.
      * cbn [List.length] in Hi.
        destruct (Hall i (proj2 (Nat.succ_lt_mono _ _) Hi)) as [E | (Hn & [Hu | (j & Hj & E1 & E2)])].
        -- left. exact E.
        -- right. split; [exact Hn |]. apply in_app_or in Hu.
           destruct Hu as [Hu | [Hu | []]]; [left; exact Hu | right].
           exists 0. split; [lia | cbn [nth]; split; [reflexivity | symmetry; exact Hu]].
        -- right. split; [exact Hn | right]. exists (S j).
           split; [lia | cbn [nth]; split; assumption].
Qed.

(** X11: [weld] returns as many segments as it is given, and each endpoint
    of the result, in the order [weld] meets them (first and second end of
    the first segment, then of the second, ...), is the endpoint given at that
    place or an earlier given endpoint that was kept and is within the
    tolerance of it: an endpoint is never moved to a point that was not given. *)
Theorem weld_snaps_within_tol (L : Lib) (tol : float) (seglist : list segment) :
  List.length (weld L tol seglist) = List.length seglist
  /\ replaced_by_earlier L tol (endpoints seglist) (endpoints (weld L tol seglist)).
Proof.
  unfold weld. split; [apply weld_from_length |].
  rewrite endpoints_weld_from.
  destruct (canon_all_spec L tol (endpoints seglist) []) as [Hlen Hall].
  split; [exact Hlen |].
  intros i Hi. destruct (Hall i Hi) as [E | (Hn & [[] | (j & Hj & E1 & E2)])].
  - left. exact E.
  - right. exists j. split; [exact Hj | split; [exact E1 | split; [exact E2 |]]].
    rewrite <- E2. exact Hn.
Qed.

Lemma leb_nan (x : float) : (x <=? nan)%float = false.
Proof.
  rewrite leb_spec. change (Prim2SF nan) with S754_nan.
  unfold SFleb, SFcompare. destruct (Prim2SF x) as [s | s | | s m e]; reflexivity.
Qed.

(** X12: with a tolerance that is not a number (the median of no link
    length, or of a length that is not a number), [weld] changes nothing. *)
Theorem weld_nan_tolerance (L : Lib) (seglist : list segment) :
  weld L nan seglist = seglist.
Proof.
  unfold weld. generalize (@nil vec) as uniques.
  assert (Hc : forall uniques pt, fst (canon L nan uniques pt) = pt).
  { intros uniques pt. unfold canon.
    destruct (find (near L nan pt) uniques) as [c |] eqn:Hfind; [| reflexivity].
    apply find_some in Hfind. destruct Hfind as [_ Hnear].
    unfold near in Hnear. rewrite leb_nan in Hnear. discriminate. }
  induction seglist as [| [A B] rest IH]; intros uniques; [reflexivity |].
  cbn [weld_from].
  pose proof (Hc uniques A) as HA. destruct (canon L nan uniques A) as [a u1].
  pose proof (Hc u1 B) as HB. destruct (canon L nan u1 B) as [b u2].
  cbn [fst] in HA, HB. subst a b. f_equal. apply IH.
Qed.

(** ** Interval union *)

Lemma merge_from_head (tol cur_a cur_b : float) (rest : list (float * float)) :
  exists (b : float) (tl : list (float * float)),
    merge_from tol cur_a cur_b rest = (cur_a, b) :: tl.
Proof.
  revert cur_a cur_b. induction rest as [| [a b] rest IH]; intros cur_a cur_b.
  - eexists. eexists. reflexivity.
  - cbn [merge_from]. destruct (a <=? cur_b + tol)%float.
    + apply IH.
    + eexists. eexists. reflexivity.
Qed.

(** X13: the greedy union of lines 471-479 returns between one interval and
    as many as it was given, and the test of line 474 fails between the end
    of each merged interval and the start of the next: they are more than the
    tolerance apart. *)
Theorem merged_intervals_apart (tol cur_a cur_b : float) (rest : list (float * float)) :
  gaps_above tol (merge_from tol cur_a cur_b rest)
  /\ 1 <= List.length (merge_from tol cur_a cur_b rest) <= S (List.length rest).
Proof.
  revert cur_a cur_b. induction rest as [| [a b] rest IH]; intros cur_a cur_b.
  - cbn. split; [exact I | lia].
  - cbn [merge_from]. destruct (a <=? cur_b + tol)%float eqn:E.
    + destruct (IH cur_a (pymax cur_b b)) as [Hg Hl]. split; [exact Hg | cbn; lia].
    + destruct (IH a b) as [Hg Hl].
      destruct (merge_from_head tol a b rest) as (b' & tl & Hm).
      rewrite Hm in *. split; [| cbn in *; lia].
      cbn [gaps_above fst snd]. split; [exact E | exact Hg].
Qed.

(** ** Axis direction *)

Lemma SFltb_opp_neg (x : spec_float) :
  SFltb x (S754_zero false) = true -> SFltb (SFopp x) (S754_zero false) = false.
Proof.
  unfold SFltb, SFcompare. destruct x as [s | s | | s m e]; cbn; try discriminate;
    destruct s; try discriminate; reflexivity.
Qed.

Lemma flip_not_negative (v : vec) : (fst (flip v) <? 0)%float = false.
Proof.
  unfold flip. destruct (fst v <? 0)%float eqn:E; [| exact E].
  unfold V.neg. cbn [fst]. rewrite ltb_spec, opp_spec in *.
  apply SFltb_opp_neg. exact E.
Qed.

(** X14: the direction of a cluster axis never has a negative first
    coordinate (lines 418-419 and 425-426 turn it round). *)
Theorem axis_direction_not_negative (L : Lib) (violet_xy : list segment)
    (members : list nat) (anchor direction : vec) :
  axis_of L violet_xy members = Ok (anchor, direction) ->
  (fst direction <? 0)%float = false.
Proof.
  unfold axis_of.
  destruct members as [| m [| m' members]].
  - destruct (np_svd_v0 L _) as [v | e |]; cbn [bind]; try discriminate.
    intros H. injection H as _ <-. apply flip_not_negative.
  - destruct (xy violet_xy m) as [p1 p2].
    intros H. injection H as _ <-. apply flip_not_negative.
  - destruct (np_svd_v0 L _) as [v | e |]; cbn [bind]; try discriminate.
    intros H. injection H as _ <-. apply flip_not_negative.
Qed.

Lemma axis_direction_not_negative_witness :
  axis_of RefLib [ ((1, 0), (0, 0))%float ] [0]
  = Ok ((1, 0)%float, flip (unit (V.sub (0, 0)%float (1, 0)%float)))
  /\ (fst (flip (unit (V.sub (0, 0)%float (1, 0)%float))) <? 0)%float = false.
Proof.
  assert (H : axis_of RefLib [ ((1, 0), (0, 0))%float ] [0]
              = Ok ((1, 0)%float, flip (unit (V.sub (0, 0)%float (1, 0)%float))))
    by reflexivity.
  split; [exact H | exact (axis_direction_not_negative _ _ _ _ _ H)].
Defined.

(** ** Symmetry of the point and angle tests *)

Lemma abs_opp (x : float) : abs (- x) = abs x.
Proof.
  apply Prim2SF_inj. rewrite !abs_spec, opp_spec.
  destruct (Prim2SF x) as [s | s | | s m e]; reflexivity.
Qed.

Lemma abs_sub_swap (a b : float) : abs (a - b) = abs (b - a).
Proof.
  destruct (sub_swap a b) as [-> | ->]; [apply eq_sym, abs_opp | reflexivity].
Qed.

(** X15: [same_pt] and [is_parallel] do not depend on the order of their
    arguments. *)
Theorem point_and_angle_tests_symmetric (L : Lib) (segs : list segment) :
  (forall P Q : vec, same_pt P Q = same_pt Q P)
  /\ (forall i j : nat, is_parallel L segs i j = is_parallel L segs j i).
Proof.
  split.
  - intros P Q. unfold same_pt.
    rewrite (abs_sub_swap (fst P) (fst Q)), (abs_sub_swap (snd P) (snd Q)). reflexivity.
  - intros i j. unfold is_parallel. rewrite (abs_sub_swap (nth i _ _) (nth j _ _)).
    reflexivity.
Qed.

(** ** Unpacking order *)

Lemma unpack2_reversed (L : Lib) (pr : fs) :
  unpack2 (reversed_unpacking L) pr
  = match unpack2 L pr with
    | Ok (A, B) => Ok (B, A)
    | other => other
    end.
Proof.
  unfold unpack2. cbn [iter_fs reversed_unpacking].
  destruct (iter_fs L pr) as [| a [| b [| c l]]]; try reflexivity.
  assert (Hlen : 3 <= List.length (rev (a :: b :: c :: l)))
    by (rewrite length_rev; cbn; lia).
  destruct (rev (a :: b :: c :: l)) as [| x [| y [| z l']]]; cbn in Hlen; try lia.
  reflexivity.
Qed.

(** X16: whether a segment is a connector (lines 319-331) does not depend
    on the order in which [tuple(pair)] gives the two indices of a pair. *)
Theorem connector_test_ignores_unpacking_order (L : Lib) (segs : list segment)
    (u : nat) (pairs : list fs) :
  is_connector (reversed_unpacking L) segs u pairs = is_connector L segs u pairs.
Proof.
  induction pairs as [| pr rest IH]; [reflexivity |].
  cbn [is_connector]. rewrite unpack2_reversed.
  destruct (unpack2 L pr) as [[A B] | e |]; try reflexivity.
  cbn [bind]. rewrite IH.
  destruct (endpts segs u) as [U1 U2], (endpts segs A) as [A1 A2],
    (endpts segs B) as [B1 B2].
  destruct (same_pt U1 A1), (same_pt U1 A2), (same_pt U2 B1), (same_pt U2 B2),
    (same_pt U2 A1), (same_pt U2 A2), (same_pt U1 B1), (same_pt U1 B2); reflexivity.
Qed.

(** Two links whose ends are a quarter apart. *)
Lemma welded_endpoints_separated_witness :
  hypot_even RefLib
  /\ In ((1, 0), (3, 3))%float
        (weld RefLib 0.5 [((0, 0), (1, 0)); ((1.25, 0), (3, 3))]%float)
  /\ (1, 0)%float = (1, 0)%float.
Proof.
  assert (H1 : In ((0, 0), (1, 0))%float
                 (weld RefLib 0.5 [((0, 0), (1, 0)); ((1.25, 0), (3, 3))]%float))
    by (vm_compute; left; reflexivity).
  assert (H2 : In ((1, 0), (3, 3))%float
                 (weld RefLib 0.5 [((0, 0), (1, 0)); ((1.25, 0), (3, 3))]%float))
    by (vm_compute; right; left; reflexivity).
  split; [exact ref_hypot_even | split; [exact H2 |]].
  apply (welded_endpoints_separated RefLib 0.5
           [((0, 0), (1, 0)); ((1.25, 0), (3, 3))]%float
           ((0, 0), (1, 0))%float ((1, 0), (3, 3))%float (1, 0)%float (1, 0)%float
           ref_hypot_even H1 H2).
  - right. reflexivity.
  - left. reflexivity.
  - vm_compute. reflexivity.
Defined.


(** ** Union-find *)

Lemma length_upd {A : Type} (i : nat) (v : A) (l : list A) :
  List.length (upd i v l) = List.length l.
Proof.
  revert i. induction l as [| a l IH]; intros [| i]; cbn; auto.
Qed.

Lemma nth_upd {A : Type} (i j : nat) (v d : A) (l : list A) :
  i < List.length l ->
  nth j (upd i v l) d = if j =? i then v else nth j l d.
Proof.
  revert i j. induction l as [| a l IH]; intros i j Hi; [cbn in Hi; lia |].
  destruct i as [| i], j as [| j]; cbn; try reflexivity.
  apply IH. cbn in Hi. lia.
Qed.

Lemma root_in_fun (p : list nat) (k k' i r r' : nat) :
  root_in p k i r -> root_in p k' i r' -> k = k' /\ r = r'.
Proof.
  revert k' i. induction k as [| k IH]; intros [| k'] i; cbn.
  - intros [<- _] [<- _]. auto.
  - intros [_ H] [H' _]. contradiction.
  - intros [H _] [_ H']. contradiction.
  - intros [_ H] [_ H']. destruct (IH k' _ H H') as [-> ->]. auto.
Qed.

Lemma root_in_root (p : list nat) (k i r : nat) :
  root_in p k i r -> nth r p 0 = r.
Proof.
  revert i. induction k as [| k IH]; intros i; cbn.
  - intros [<- H]. exact H.
  - intros [_ H]. apply (IH _ H).
Qed.

Lemma root_in_range (p : list nat) (k i r : nat) :
  (forall x, x < List.length p -> nth x p 0 < List.length p) ->
  i < List.length p -> root_in p k i r -> r < List.length p.
Proof.
  intros Hp. revert i. induction k as [| k IH]; intros i Hi; cbn.
  - intros [<- _]. exact Hi.
  - intros [_ H]. apply (IH _ (Hp i Hi) H).
Qed.

Lemma path_depth (p : list nat) (k i r x : nat) :
  root_in p k i r -> In x (path p k i) -> exists j : nat, j <= k /\ root_in p j x r.
Proof.
  revert i. induction k as [| k IH]; intros i; cbn [path].
  - intros H [<- | []]. exists 0. split; [lia | exact H].
  - intros H [<- | Hin].
    + exists (S k). split; [lia | exact H].
    + destruct H as [_ H]. destruct (IH _ H Hin) as (j & Hj & Hr).
      exists j. split; [lia | exact Hr].
Qed.

Lemma path_NoDup (p : list nat) (k i r : nat) :
  root_in p k i r -> NoDup (path p k i).
Proof.
  revert i. induction k as [| k IH]; intros i H; cbn [path].
  - constructor; [intros [] | constructor].
  - constructor.
    + intros Hin. destruct H as [Hne H'].
      destruct (path_depth p k _ r i H' Hin) as (j & Hj & Hr).
      assert (Hfull : root_in p (S k) i r) by (split; assumption).
      destruct (root_in_fun p _ _ _ _ _ Hfull Hr). lia.
    + apply (IH _ (proj2 H)).
Qed.

Lemma path_range (p : list nat) (k i r x : nat) :
  (forall y, y < List.length p -> nth y p 0 < List.length p) ->
  i < List.length p -> In x (path p k i) -> x < List.length p.
Proof.
  intros Hp. revert i. induction k as [| k IH]; intros i Hi; cbn [path].
  - intros [<- | []]. exact Hi.
  - intros [<- | Hin]; [exact Hi | apply (IH _ (Hp i Hi) Hin)].
Qed.

Lemma path_length (p : list nat) (k i : nat) : List.length (path p k i) = S k.
Proof. revert i. induction k as [| k IH]; intros i; cbn; [| rewrite IH]; reflexivity. Qed.

(** A node is fewer steps from its root than there are nodes. *)
Lemma depth_bound (p : list nat) (k i r : nat) :
  (forall y, y < List.length p -> nth y p 0 < List.length p) ->
  i < List.length p -> root_in p k i r -> k < List.length p.
Proof.
  intros Hp Hi H.
  assert (Hle : List.length (path p k i) <= List.length (seq 0 (List.length p))).
  { apply NoDup_incl_length; [apply (path_NoDup p k i r H) |].
    intros x Hx. apply in_seq. pose proof (path_range p k i r x Hp Hi Hx). lia. }
  rewrite path_length, length_seq in Hle. lia.
Qed.

(** Path halving at [i] keeps every root, and no node gets further from
    its root. *)
Lemma halving_keeps_roots (p : list nat) (i : nat) :
  i < List.length p ->
  nth i p 0 <> i ->
  forall k x r : nat,
    root_in p k x r ->
    exists k' : nat,
      k' <= k /\ root_in (upd i (nth (nth i p 0) p 0) p) k' x r.
Proof.
  intros Hi Hne.
  set (p' := upd i (nth (nth i p 0) p 0) p).
  assert (Hnth : forall j, nth j p' 0 = if j =? i then nth (nth i p 0) p 0 else nth j p 0)
    by (intros j; apply nth_upd; exact Hi).
  induction k as [k IH] using lt_wf_ind. intros x r H.
  destruct (Nat.eq_dec x i) as [-> | Hxi].
  - (* the node that is re-linked *)
    destruct k as [| k]; cbn in H; [destruct H as [_ H]; contradiction |].
    destruct H as [_ H].
    destruct k as [| k]; cbn in H.
    + (* its parent is the root *)
      destruct H as [<- Hroot].
      destruct (IH 0 (Nat.lt_0_succ 0) (nth i p 0) (nth i p 0)) as (k' & Hk' & Hr);
        [cbn; auto |].
      exists (S k'). split; [lia |]. cbn. rewrite Hnth, Nat.eqb_refl, Hroot.
      split; [exact Hne | exact Hr].
    + destruct H as [Hpne H].
      destruct (IH k (Nat.lt_lt_succ_r _ _ (Nat.lt_succ_diag_r k)) _ r H) as (k' & Hk' & Hr).
      exists (S k'). split; [lia |]. cbn. rewrite Hnth, Nat.eqb_refl.
      split; [| exact Hr].
      intros E. rewrite E in H.
      assert (Hfull : root_in p (S (S k)) i r).
      { cbn. split; [exact Hne | split; [exact Hpne | rewrite E; exact H]]. }
      destruct (root_in_fun p _ _ _ _ _ Hfull H). lia.
  - assert (Hx : nth x p' 0 = nth x p 0).
    { rewrite Hnth. apply Nat.eqb_neq in Hxi. rewrite Hxi. reflexivity. }
    destruct k as [| k]; cbn in H.
    + exists 0. split; [lia |]. cbn. rewrite Hx. exact H.
    + destruct H as [Hpne H].
      destruct (IH k (Nat.lt_succ_diag_r k) _ r H) as (k' & Hk' & Hr).
      exists (S k'). split; [lia |]. cbn. rewrite Hx. split; assumption.
Qed.

Lemma halving_keeps_forest (p : list nat) (i : nat) :
  forest p -> i < List.length p -> nth i p 0 <> i ->
  forest (upd i (nth (nth i p 0) p 0) p).
Proof.
  intros [Hp Hr] Hi Hne. split; rewrite length_upd.
  - intros j Hj. rewrite nth_upd by exact Hi.
    destruct (j =? i); [apply Hp, Hp, Hi | apply Hp, Hj].
  - intros j Hj. destruct (Hr j Hj) as (r & k & H).
    destruct (halving_keeps_roots p i Hi Hne k j r H) as (k' & _ & H').
    exists r, k'. exact H'.
Qed.

(** [find]: enough fuel is one more than the distance to the root. *)
Lemma uf_find_spec (fuel : nat) :
  forall (p : list nat) (i k r : nat),
    forest p -> i < List.length p -> root_in p k i r -> k < fuel ->
    exists p' : list nat,
      uf_find fuel p i = Ok (p', r)
      /\ List.length p' = List.length p
      /\ forest p'
      /\ forall x rx : nat, root_of p x rx -> root_of p' x rx.
Proof.
  induction fuel as [| fuel IH]; intros p i k r Hf Hi H Hk; [lia |].
  cbn [uf_find]. destruct (nth i p 0 =? i) eqn:E.
  - apply Nat.eqb_eq in E. exists p.
    destruct k as [| k]; cbn in H; [| destruct H as [H _]; contradiction].
    destruct H as [<- _].
    split; [reflexivity | split; [reflexivity | split; [exact Hf | auto]]].
  - apply Nat.eqb_neq in E.
    set (pp := nth (nth i p 0) p 0). set (p1 := upd i pp p).
    assert (Hf1 : forest p1) by (apply halving_keeps_forest; assumption).
    assert (Hkeep : forall k x r, root_in p k x r ->
                      exists k', k' <= k /\ root_in p1 k' x r)
      by (apply halving_keeps_roots; assumption).
    assert (Hpp : pp < List.length p) by (apply Hf, Hf, Hi).
    (* how far [pp] is from the root *)
    assert (Hdepth : exists k2, S k2 <= k /\ root_in p k2 pp r).
    { destruct k as [| k]; cbn in H; [destruct H as [_ H]; contradiction |].
      destruct H as [_ H]. destruct k as [| k]; cbn in H.
      - destruct H as [<- Hroot]. exists 0. split; [lia |].
        cbn. unfold pp. rewrite Hroot. auto.
      - destruct H as [_ H]. exists k. split; [lia | exact H]. }
    destruct Hdepth as (k2 & Hk2 & H2).
    destruct (Hkeep k2 pp r H2) as (k3 & Hk3 & H3).
    destruct (IH p1 pp k3 r Hf1) as (p' & Hfind & Hlen & Hf' & Hroots);
      [unfold p1; rewrite length_upd; exact Hpp | exact H3 | lia |].
    exists p'. split; [exact Hfind | split; [| split; [exact Hf' |]]].
    + rewrite Hlen. unfold p1. apply length_upd.
    + intros x rx (kx & Hx). apply Hroots.
      destruct (Hkeep kx x rx Hx) as (k' & _ & H'). exists k'. exact H'.
Qed.

Lemma find_root_spec (p : list nat) (i : nat) :
  forest p -> i < List.length p ->
  exists (p' : list nat) (r : nat),
    find_root p i = Ok (p', r)
    /\ List.length p' = List.length p
    /\ forest p'
    /\ r < List.length p
    /\ root_of p' i r
    /\ nth r p' 0 = r
    /\ forall x rx : nat, root_of p x rx -> root_of p' x rx.
Proof.
  intros Hf Hi. destruct (proj2 Hf i Hi) as (r & k & H).
  pose proof (depth_bound p k i r (proj1 Hf) Hi H) as Hk.
  destruct (uf_find_spec (S (List.length p)) p i k r Hf Hi H)
    as (p' & Hfind & Hlen & Hf' & Hroots); [lia |].
  exists p', r. unfold find_root.
  assert (Hr' : root_of p' i r) by (apply Hroots; exists k; exact H).
  split; [exact Hfind | split; [exact Hlen | split; [exact Hf' |]]].
  split; [apply (root_in_range p k i r (proj1 Hf) Hi H) |].
  split; [exact Hr' | split; [| exact Hroots]].
  destruct Hr' as (k' & H'). apply (root_in_root p' k' i r H').
Qed.

(** Linking the root [b] under another root [a] keeps a forest. *)
Lemma link_keeps_forest (p : list nat) (a b : nat) :
  forest p -> a < List.length p -> b < List.length p ->
  nth a p 0 = a -> nth b p 0 = b -> a <> b ->
  forest (upd b a p).
Proof.
  intros [Hp Hr] Ha Hb Hra Hrb Hab.
  assert (Hnth : forall j, nth j (upd b a p) 0 = if j =? b then a else nth j p 0)
    by (intros j; apply nth_upd; exact Hb).
  split; rewrite length_upd.
  - intros j Hj. rewrite Hnth. destruct (j =? b); [exact Ha | apply Hp, Hj].
  - assert (Hmove : forall k x r, root_in p k x r ->
                      exists k' r', root_in (upd b a p) k' x r').
    { induction k as [| k IH]; intros x r H; cbn in H.
      - destruct H as [<- Hroot]. destruct (Nat.eq_dec x b) as [-> | Hxb].
        + assert (Hb' : nth b (upd b a p) 0 = a)
            by (rewrite Hnth, Nat.eqb_refl; reflexivity).
          assert (Ha' : nth a (upd b a p) 0 = a).
          { rewrite Hnth. destruct (a =? b) eqn:E; [| exact Hra].
            apply Nat.eqb_eq in E. contradiction. }
          exists 1, a. cbn. rewrite Hb'.
          split; [exact Hab | split; [reflexivity | exact Ha']].
        + exists 0, x. cbn. rewrite Hnth. apply Nat.eqb_neq in Hxb. rewrite Hxb. auto.
      - destruct H as [Hne H]. destruct (IH _ r H) as (k' & r' & H').
        assert (Hxb : x <> b) by congruence.
        exists (S k'), r'. cbn. rewrite Hnth. apply Nat.eqb_neq in Hxb. rewrite Hxb.
        split; assumption. }
    intros j Hj. destruct (Hr j Hj) as (r & k & H).
    destruct (Hmove k j r H) as (k' & r' & H'). exists r', k'. exact H'.
Qed.

Lemma union_spec (p : list nat) (i j : nat) :
  forest p -> i < List.length p -> j < List.length p ->
  exists p' : list nat,
    union p i j = Ok p'
    /\ List.length p' = List.length p /\ forest p'.
Proof.
  intros Hf Hi Hj. unfold union.
  destruct (find_root_spec p i Hf Hi)
    as (p1 & a & -> & Hl1 & Hf1 & Ha & _ & Hra & _).
  cbn [bind fst snd].
  destruct (find_root_spec p1 j Hf1) as (p2 & b & -> & Hl2 & Hf2 & Hb & _ & Hrb & Hkeep);
    [rewrite Hl1; exact Hj |].
  cbn [bind fst snd].
  destruct (a =? b) eqn:E.
  - exists p2. split; [reflexivity | split; [congruence | exact Hf2]].
  - apply Nat.eqb_neq in E. exists (upd b a p2).
    split; [reflexivity | split; [rewrite length_upd; congruence |]].
    apply link_keeps_forest; try assumption; try congruence; try lia.
    destruct (Hkeep a a) as (k & H); [exists 0; cbn; auto |].
    apply (root_in_root p2 k a a H).
Qed.

(** ** The skeleton stage *)

Lemma mapM_ok {A B : Type} (f : A -> res B) (l : list A) :
  (forall a : A, In a l -> exists b : B, f a = Ok b) ->
  exists bs : list B, mapM f l = Ok bs.
Proof.
  induction l as [| a l IH]; intros H; [exists []; reflexivity |].
  destruct (H a (or_introl eq_refl)) as (b & Hb).
  destruct IH as (bs & Hbs); [intros x Hx; apply H; right; exact Hx |].
  exists (b :: bs). cbn [mapM]. rewrite Hb. cbn [bind]. rewrite Hbs. reflexivity.
Qed.

Lemma seq_forest (n : nat) : forest (seq 0 n).
Proof.
  split; rewrite length_seq; intros i Hi.
  - rewrite seq_nth by exact Hi. exact Hi.
  - exists i, 0. cbn. rewrite seq_nth by exact Hi. auto.
Qed.

Lemma In_index_pairs (n i j : nat) : In (i, j) (index_pairs n) -> i < n /\ j < n.
Proof.
  unfold index_pairs. rewrite in_flat_map. intros (x & Hx & Hin).
  apply in_map_iff in Hin. destruct Hin as (y & E & Hy). inversion E; subst.
  apply in_seq in Hx, Hy. lia.
Qed.

(** Lines 399-407 return: [find] always reaches a root. *)
Lemma united_spec (L : Lib) (violet_xy : list segment) :
  exists parent : list nat,
    united L violet_xy = Ok parent
    /\ List.length parent = List.length violet_xy /\ forest parent.
Proof.
  unfold united. set (n := List.length violet_xy).
  assert (Hgen : forall (l : list (nat * nat)) (p : list nat),
            (forall ij, In ij l -> fst ij < n /\ snd ij < n) ->
            List.length p = n -> forest p ->
            exists p' : list nat,
              fold_res (fun parent (ij : nat * nat) =>
                          if same_axis L violet_xy (fst ij) (snd ij)
                          then union parent (fst ij) (snd ij) else Ok parent) l p = Ok p'
              /\ List.length p' = n /\ forest p').
  { induction l as [| [i j] l IH]; intros p Hl Hlen Hf.
    - exists p. auto.
    - cbn [fold_res fst snd].
      destruct (Hl (i, j) (or_introl eq_refl)) as [Hi Hj]. cbn [fst snd] in Hi, Hj.
      assert (Hl' : forall ij, In ij l -> fst ij < n /\ snd ij < n)
        by (intros ij Hin; apply Hl; right; exact Hin).
      destruct (same_axis L violet_xy i j).
      + destruct (union_spec p i j Hf) as (p1 & -> & Hlen1 & Hf1); try lia.
        cbn [bind]. apply IH; [exact Hl' | lia | exact Hf1].
      + cbn [bind]. apply IH; assumption. }
  apply Hgen.
  - intros [i j] Hin. apply In_index_pairs. exact Hin.
  - apply length_seq.
  - apply seq_forest.
Qed.

Lemma cl_add_keys (r idx k : nat) (cl : list (nat * list nat)) :
  In k (map fst (cl_add r idx cl)) <-> k = r \/ In k (map fst cl).
Proof.
  induction cl as [| [k0 ms] cl IH]; cbn [cl_add map fst In].
  - intuition.
  - destruct (k0 =? r) eqn:E; cbn [map fst In].
    + apply Nat.eqb_eq in E. subst. intuition.
    + rewrite IH. intuition.
Qed.

Lemma cl_add_members (r idx : nat) (cl : list (nat * list nat)) :
  (forall c, In c cl -> snd c <> []) ->
  forall c, In c (cl_add r idx cl) -> snd c <> [].
Proof.
  induction cl as [| [k0 ms] cl IH]; intros H c; cbn [cl_add].
  - intros [<- | []]. discriminate.
  - destruct (k0 =? r).
    + intros [<- | Hin]; [cbn; destruct ms; discriminate | apply H; right; exact Hin].
    + intros [<- | Hin]; [apply (H (k0, ms)); left; reflexivity |].
      apply IH; [intros c' Hc'; apply H; right; exact Hc' | exact Hin].
Qed.

(** Lines 409-411: every index gets a cluster under its root, and no
    cluster is empty. *)
Lemma clustered_spec (violet_xy : list segment) (parent : list nat) :
  List.length parent = List.length violet_xy -> forest parent ->
  exists (p' : list nat) (clusters : list (nat * list nat)),
    clustered violet_xy parent = Ok (p', clusters)
    /\ List.length p' = List.length violet_xy /\ forest p'
    /\ (forall c, In c clusters -> snd c <> [])
    /\ forall idx : nat, idx < List.length violet_xy -> keyed p' clusters idx.
Proof.
  intros Hlen Hf. unfold clustered. set (n := List.length violet_xy) in *.
  assert (Hgen : forall (l : list nat) (p : list nat) (cl : list (nat * list nat)),
            (forall x, In x l -> x < n) ->
            List.length p = n -> forest p -> (forall c, In c cl -> snd c <> []) ->
            exists (p' : list nat) (cl' : list (nat * list nat)),
              fold_res (fun (st : list nat * list (nat * list nat)) idx =>
                          bind (find_root (fst st) idx) (fun pr =>
                            Ok (fst pr, cl_add (snd pr) idx (snd st)))) l (p, cl)
              = Ok (p', cl')
              /\ List.length p' = n /\ forest p'
              /\ (forall c, In c cl' -> snd c <> [])
              /\ (forall idx, keyed p cl idx -> keyed p' cl' idx)
              /\ forall idx, In idx l -> keyed p' cl' idx).
  { induction l as [| x l IH]; intros p cl Hl Hp Hfp Hne.
    - exists p, cl. cbn [fold_res].
      split; [reflexivity | split; [exact Hp | split; [exact Hfp |]]].
      split; [exact Hne | split; [auto | intros idx []]].
    - cbn [fold_res fst snd].
      destruct (find_root_spec p x Hfp) as (p1 & r & -> & Hl1 & Hf1 & Hr & Hroot & _ & Hkeep);
        [rewrite Hp; apply Hl; left; reflexivity |].
      cbn [bind fst snd].
      destruct (IH p1 (cl_add r x cl)) as (p' & cl' & Hfold & Hl' & Hf' & Hne' & Hmono & Hall);
        [intros y Hy; apply Hl; right; exact Hy | lia | exact Hf1
        | apply cl_add_members; exact Hne |].
      exists p', cl'.
      split; [exact Hfold | split; [exact Hl' | split; [exact Hf' |]]].
      split; [exact Hne' |]. split.
      + intros idx (r0 & Hr0 & Hin). apply Hmono. exists r0.
        split; [apply Hkeep; exact Hr0 | apply cl_add_keys; right; exact Hin].
      + intros idx [<- | Hin]; [| apply Hall; exact Hin].
        apply Hmono. exists r. split; [exact Hroot | apply cl_add_keys; left; reflexivity]. }
  destruct (Hgen (seq 0 n) parent []) as (p' & cl' & Hfold & Hl' & Hf' & Hne' & _ & Hall).
  - intros x Hx. apply in_seq in Hx. lia.
  - exact Hlen.
  - exact Hf.
  - intros c [].
  - exists p', cl'.
    split; [exact Hfold | split; [exact Hl' | split; [exact Hf' | split; [exact Hne' |]]]].
    intros idx Hidx. apply Hall, in_seq. lia.
Qed.

Lemma axis_of_failure (L : Lib) (violet_xy : list segment) (members : list nat) :
  skeleton_failure L (axis_of L violet_xy members).
Proof.
  unfold axis_of.
  assert (Hsvd : forall M k,
            skeleton_failure L (bind (np_svd_v0 L M) (fun v => Ok (k v : vec * vec)))).
  { intros M k. destruct (np_svd_v0 L M) eqn:E; cbn; eauto. }
  destruct members as [| m [| m' rest]]; try apply Hsvd.
  destruct (xy violet_xy m). exact I.
Qed.

Lemma cluster_axes_spec (L : Lib) (violet_xy : list segment)
    (clusters : list (nat * list nat)) :
  match cluster_axes L violet_xy clusters with
  | Ok axes => map fst axes = map fst clusters
  | r => skeleton_failure L r
  end.
Proof.
  unfold cluster_axes. induction clusters as [| [k ms] cl IH]; [reflexivity |].
  cbn [mapM fst snd]. pose proof (axis_of_failure L violet_xy ms) as Ha.
  destruct (axis_of L violet_xy ms) as [a | e |]; cbn [bind]; try exact Ha.
  destruct (mapM _ cl) as [axes | e |]; cbn [bind]; try exact IH.
  cbn [map fst]. f_equal. exact IH.
Qed.

Lemma axis_get_ok (root : nat) (axes : list (nat * (vec * vec))) :
  In root (map fst axes) -> exists a : vec * vec, axis_get root axes = Ok a.
Proof.
  induction axes as [| [k a] axes IH]; cbn [map fst In axis_get]; [intros [] |].
  intros [-> | Hin]; [rewrite Nat.eqb_refl; eauto |].
  destruct (k =? root); eauto.
Qed.

(** Lines 430-436 return: [cluster_axis] has the root of every link. *)
Lemma aligned_spec (violet_xy : list segment) (parent : list nat)
    (clusters : list (nat * list nat)) (axes : list (nat * (vec * vec))) :
  List.length parent = List.length violet_xy -> forest parent ->
  (forall idx, idx < List.length violet_xy -> keyed parent clusters idx) ->
  map fst axes = map fst clusters ->
  exists pa : list nat * list segment, aligned violet_xy parent axes = Ok pa.
Proof.
  intros Hlen Hf Hkeys Haxes. unfold aligned. set (n := List.length violet_xy) in *.
  assert (Hgen : forall (l : list (nat * segment)) (p : list nat) (acc : list segment),
            (forall il, In il l -> fst il < n) ->
            List.length p = n -> forest p ->
            (forall idx, idx < n -> keyed p clusters idx) ->
            exists pa : list nat * list segment,
              fold_res (fun (st : list nat * list segment) (il : nat * segment) =>
                let '(idx, (P, Q)) := il in
                bind (find_root (fst st) idx) (fun pr =>
                bind (axis_get (snd pr) axes) (fun a =>
                  let '(anchor, v_hat) := a in
                  let P_proj := project anchor v_hat P in
                  let Q_proj := project anchor v_hat Q in
                  let link :=
                    if (V.dot (V.sub Q_proj P_proj) v_hat <? 0)%float
                    then (Q_proj, P_proj) else (P_proj, Q_proj) in
                  Ok (fst pr, snd st ++ [link])))) l (p, acc) = Ok pa).
  { induction l as [| [idx [P Q]] l IH]; intros p acc Hl Hp Hfp Hk.
    - eexists. reflexivity.
    - cbn [fold_res fst snd].
      assert (Hidx : idx < n) by (apply (Hl (idx, (P, Q))); left; reflexivity).
      destruct (find_root_spec p idx Hfp)
        as (p1 & r & -> & Hl1 & Hf1 & Hr & Hroot & _ & Hkeep); [lia |].
      cbn [bind fst snd].
      assert (Hin : In r (map fst axes)).
      { destruct (Hk idx Hidx) as (r0 & (k0 & Hr0) & Hin0).
        destruct (Hkeep idx r0 (ex_intro _ k0 Hr0)) as (k1 & Hr1).
        destruct Hroot as (k2 & Hr2).
        destruct (root_in_fun p1 _ _ _ _ _ Hr1 Hr2) as [_ <-].
        rewrite Haxes. exact Hin0. }
      destruct (axis_get_ok r axes Hin) as ([anchor v_hat] & ->). cbn [bind].
      apply IH; [intros il Hil; apply Hl; right; exact Hil | lia | exact Hf1 |].
      intros x Hx. destruct (Hk x Hx) as (r0 & Hr0 & Hin0).
      exists r0. split; [apply Hkeep; exact Hr0 | exact Hin0]. }
  apply Hgen; try assumption.
  intros [i a] Hin. apply (In_enumerate violet_xy i a Hin).
Qed.

Lemma unify_cluster_ok (L : Lib) (tol : float) (aligned_links : list segment)
    (axis : vec * vec) (members : list nat) :
  members <> [] ->
  exists links : list segment,
    unify_cluster L tol aligned_links axis members = Ok links.
Proof.
  intros Hne. unfold unify_cluster. destruct axis as [anchor v_hat].
  destruct members as [| m ms]; [contradiction |].
  match goal with
  | |- context [sort_by_start L ?l] =>
      pose proof (sort_by_start_perm L l) as H;
      destruct (sort_by_start L l) as [| [a b] t]
  end; [| eauto].
  apply Permutation_sym, Permutation_nil in H. discriminate.
Qed.

Lemma midpoint_lines_failure (L : Lib) (segs : list segment) (stripe_pairs : list fs) :
  match midpoint_lines L segs stripe_pairs with
  | Ok _ => True
  | Raise e => e = ValueError
  | OutOfFuel => False
  end.
Proof.
  unfold midpoint_lines.
  set (f := fun pr : fs => bind (unpack2 L pr)
                             (fun AB => Ok (midpoint_line L segs (fst AB) (snd AB)))).
  destruct (mapM f (iter_pairs L stripe_pairs)) as [v | e |] eqn:E; [exact I | |].
  - revert E. apply (mapM_raise f (fun e => e = ValueError)).
    intros a e'. unfold f, unpack2.
    destruct (iter_fs L a) as [| x [| y [| z t]]]; cbn; congruence.
  - revert E. apply mapM_fuel. intros a. unfold f, unpack2.
    destruct (iter_fs L a) as [| x [| y [| z t]]]; cbn; discriminate.
Qed.

(** The skeleton stage (lines 354-485) ends with its links, with the
    ValueError of unpacking a stripe pair that has not two indices, or with
    what [np.linalg.svd] does: [find] always reaches a root, the axis of
    every link is in [cluster_axis], and no cluster is empty. *)
Lemma skeleton_ends
    (L : Lib) (segs : list segment) (stripe_pairs : list fs) :
  skeleton_failure L (skeleton L segs stripe_pairs).
Proof.
  unfold skeleton.
  pose proof (midpoint_lines_failure L segs stripe_pairs) as Hm.
  destruct (midpoint_lines L segs stripe_pairs) as [violet_xy | e |];
    cbn [bind]; [| left; exact Hm | contradiction].
  destruct (united_spec L violet_xy) as (parent & -> & Hlen & Hf). cbn [bind].
  destruct (clustered_spec violet_xy parent Hlen Hf)
    as (p' & clusters & -> & Hlen' & Hf' & Hne & Hkeys).
  cbn [bind fst snd].
  pose proof (cluster_axes_spec L violet_xy clusters) as Hax.
  destruct (cluster_axes L violet_xy clusters) as [axes | e |]; cbn [bind]; try exact Hax.
  destruct (aligned_spec violet_xy p' clusters axes Hlen' Hf' Hkeys Hax) as (pa & ->).
  cbn [bind].
  match goal with
  | |- context [mapM ?f clusters] =>
      destruct (mapM_ok f clusters) as (unified & ->); [| exact I]
  end.
  intros c Hc. cbn beta.
  destruct (axis_get_ok (fst c) axes) as (a & ->);
    [rewrite Hax; apply in_map; exact Hc |].
  cbn [bind]. apply unify_cluster_ok. apply Hne. exact Hc.
Qed.

(** ** Union and the ways [identify] ends *)

Lemma link_roots (p : list nat) (a b : nat) :
  a < List.length p -> b < List.length p ->
  nth a p 0 = a -> nth b p 0 = b -> a <> b ->
  forall k x r : nat,
    root_in p k x r ->
    root_of (upd b a p) x (if r =? b then a else r).
Proof.
  intros Ha Hb Hra Hrb Hab.
  assert (Hnth : forall j, nth j (upd b a p) 0 = if j =? b then a else nth j p 0)
    by (intros j; apply nth_upd; exact Hb).
  induction k as [| k IH]; intros x r H; cbn in H.
  - destruct H as [<- Hroot]. destruct (x =? b) eqn:E.
    + apply Nat.eqb_eq in E. subst x.
      assert (Hb' : nth b (upd b a p) 0 = a)
        by (rewrite Hnth, Nat.eqb_refl; reflexivity).
      assert (Ha' : nth a (upd b a p) 0 = a).
      { rewrite Hnth. destruct (a =? b) eqn:E; [| exact Hra].
        apply Nat.eqb_eq in E. contradiction. }
      exists 1. cbn. rewrite Hb'.
      split; [exact Hab | split; [reflexivity | exact Ha']].
    + exists 0. cbn. rewrite Hnth, E. auto.
  - destruct H as [Hne H]. destruct (IH _ r H) as (k' & H').
    assert (Hxb : x <> b) by congruence.
    exists (S k'). cbn. rewrite Hnth. apply Nat.eqb_neq in Hxb. rewrite Hxb.
    split; assumption.
Qed.

(** X18: on a forest, [union(i, j)] returns ([find] reaches a root within
    the turns it is given), leaves a forest over the same indices, and [i]
    and [j] have one root afterwards. *)
Theorem union_joins (parent : list nat) (i j : nat) :
  forest parent -> i < List.length parent -> j < List.length parent ->
  exists (parent' : list nat) (r : nat),
    union parent i j = Ok parent'
    /\ forest parent' /\ List.length parent' = List.length parent
    /\ root_of parent' i r /\ root_of parent' j r.
Proof.
  intros Hf Hi Hj. unfold union.
  destruct (find_root_spec parent i Hf Hi)
    as (p1 & a & -> & Hl1 & Hf1 & Ha & Hia & Hra & _).
  cbn [bind fst snd].
  destruct (find_root_spec p1 j Hf1)
    as (p2 & b & -> & Hl2 & Hf2 & Hb & Hjb & Hrb & Hkeep);
    [rewrite Hl1; exact Hj |].
  cbn [bind fst snd].
  pose proof (Hkeep i a Hia) as Hia2.
  destruct (a =? b) eqn:E.
  - apply Nat.eqb_eq in E. subst b. exists p2, a.
    split; [reflexivity | split; [exact Hf2 | split; [congruence |]]].
    split; assumption.
  - apply Nat.eqb_neq in E.
    assert (Hra2 : nth a p2 0 = a).
    { destruct (Hkeep a a) as (k & H); [exists 0; cbn; auto |].
      apply (root_in_root p2 k a a H). }
    assert (Ha2 : a < List.length p2) by lia.
    assert (Hb2 : b < List.length p2) by lia.
    exists (upd b a p2), a.
    split; [reflexivity |].
    split; [apply link_keeps_forest; assumption |].
    split; [rewrite length_upd; congruence |].
    destruct Hia2 as (ki & Hki). destruct Hjb as (kj & Hkj).
    pose proof (link_roots p2 a b Ha2 Hb2 Hra2 Hrb E ki i a Hki) as H1.
    pose proof (link_roots p2 a b Ha2 Hb2 Hra2 Hrb E kj j b Hkj) as H2.
    rewrite Nat.eqb_refl in H2. apply Nat.eqb_neq in E. rewrite E in H1.
    split; assumption.
Qed.

Lemma union_joins_witness :
  forest Samples.two_trees
  /\ exists (parent' : list nat) (r : nat),
       union Samples.two_trees 1 3 = Ok parent'
       /\ forest parent' /\ List.length parent' = 4
       /\ root_of parent' 1 r /\ root_of parent' 3 r.
Proof.
  assert (Hf : forest Samples.two_trees).
  { split.
    - intros [| [| [| [| i]]]] Hi; cbn in *; lia.
    - intros [| [| [| [| i]]]] Hi; cbn in Hi; try lia.
      + exists 0, 0. cbn. auto.
      + exists 0, 1. cbn. auto.
      + exists 2, 0. cbn. auto.
      + exists 2, 1. cbn. auto. }
  split; [exact Hf |].
  apply (union_joins Samples.two_trees 1 3 Hf); cbn; lia.
Defined.

(** ** The ways [identify] ends *)

Lemma unpack2_raise (L : Lib) (pr : fs) (e : exn) :
  unpack2 L pr = Raise e -> e = ValueError.
Proof.
  unfold unpack2. destruct (iter_fs L pr) as [| x [| y [| z t]]]; congruence.
Qed.

Lemma is_connector_raise (L : Lib) (segs : list segment) (u : nat) (pairs : list fs)
    (e : exn) :
  is_connector L segs u pairs = Raise e -> e = ValueError.
Proof.
  induction pairs as [| pr rest IH]; [discriminate |].
  cbn [is_connector]. destruct (unpack2 L pr) as [[A B] | e' |] eqn:Hu; cbn [bind].
  - destruct (endpts segs u), (endpts segs A), (endpts segs B).
    match goal with |- context [if ?c then _ else _] => destruct c end;
      [discriminate | exact IH].
  - intros H. injection H as <-. apply (unpack2_raise L pr e' Hu).
  - discriminate.
Qed.

Lemma absorb_raise (L : Lib) (segs : list segment) (lonely : list nat)
    (pairs : list fs) (st : list fs * list nat) (e : exn) :
  absorb L segs lonely pairs st = Raise e -> e = ValueError.
Proof.
  revert st. induction pairs as [| pr rest IH]; intros st; [discriminate |].
  cbn [absorb]. destruct (unpack2 L pr) as [[A B] | e' |] eqn:Hu; cbn [bind].
  - apply IH.
  - intros H. injection H as <-. apply (unpack2_raise L pr e' Hu).
  - discriminate.
Qed.

Lemma grow_step_raise (L : Lib) (segs : list segment) (stripe_pairs : list fs)
    (e : exn) :
  grow_step L segs stripe_pairs = Raise e -> e = ValueError.
Proof.
  unfold grow_step.
  match goal with
  | |- context [mapM ?f ?l] =>
      pose proof (mapM_raise f (fun e => e = ValueError)) as Hm;
      destruct (mapM f l) as [flags | e' |] eqn:E
  end; cbn [bind].
  - destruct (filter _ (ungrouped segs stripe_pairs)) as [| u lonely]; [discriminate |].
    match goal with
    | |- context [absorb L segs ?lo ?ps ?st] =>
        destruct (absorb L segs lo ps st) as [[new used] | e' |] eqn:Ha
    end; cbn [bind fst].
    + destruct new; discriminate.
    + intros H. injection H as <-. apply (absorb_raise _ _ _ _ _ _ Ha).
    + discriminate.
  - intros H. injection H as <-. apply (Hm) with (l := iter_ints L (ungrouped segs stripe_pairs));
      [| exact E].
    intros u e0. cbn beta.
    destruct (is_connector L segs u (iter_pairs L stripe_pairs)) as [c | e1 |] eqn:Hc;
      cbn [bind]; try discriminate.
    intros H. injection H as <-. apply (is_connector_raise _ _ _ _ _ Hc).
  - discriminate.
Qed.

Lemma grow_raise (L : Lib) (segs : list segment) (fuel : nat) (stripe_pairs : list fs)
    (e : exn) :
  grow L segs fuel stripe_pairs = Raise e -> e = ValueError.
Proof.
  revert stripe_pairs. induction fuel as [| fuel IH]; intros stripe_pairs; [discriminate |].
  cbn [grow].
  destruct (grow_step L segs stripe_pairs) as [[o | stripe_pairs'] | e' |] eqn:Hs;
    cbn [bind]; try discriminate.
  - apply IH.
  - intros H. injection H as <-. apply (grow_step_raise _ _ _ _ Hs).
Qed.

Lemma polygonise_failure (L : Lib) (unified_links : list segment) :
  library_failure L (polygonise L unified_links).
Proof.
  unfold polygonise. destruct (shapely L) as [polygonize |] eqn:Hs; [| exact I].
  match goal with
  | |- context [polygonize ?ls] => destruct (polygonize ls) as [polys | e |] eqn:Hp
  end; cbn [bind library_failure]; [exact I | right; right | right]; eauto.
Qed.

(** X20: [identify] ends with its rooms, with ValueError, or with what
    [np.linalg.svd] or Shapely's [polygonize] ends with: the loops of the
    Pair-Grower and of [find] are left, [cluster_axis[root]] is there for
    every link, and [intervals[0]] for every cluster. *)
Theorem identify_fails_by_value_error_or_library (L : Lib) (g : rng L)
    (parsed : fromstring) :
  iter_ok L -> library_failure L (fst (identify L g parsed)).
Proof.
  intros Hiter. unfold identify.
  destruct (_extract_polylines L parsed) as [polys | e |] eqn:Hx; cbn [fst].
  - destruct polys as [| poly polys]; [exact I |]. unfold identify_polylines.
    destruct (rand_points_from L (seed L 42) (flatten (poly :: polys)))
      as [rand_points g']. cbn [fst].
    unfold unified_links_of, stripe_pairs_of, grower.
    set (segs := flatten (poly :: polys)).
    set (seeds := seed_pairs segs rand_points).
    assert (Hfuel : grow L segs (S (List.length segs)) seeds <> OutOfFuel).
    { apply (grow_enough_fuel L Hiter). unfold ungrouped.
      pose proof (filter_length_le (fun i => negb (mem i (paired seeds)))
                    (seq 0 (List.length segs))) as Hle.
      rewrite length_seq in Hle. lia. }
    destruct (grow L segs (S (List.length segs)) seeds) as [[final o] | e |] eqn:Hg;
      cbn [bind fst]; [| left; apply (grow_raise _ _ _ _ _ Hg) | contradiction].
    pose proof (skeleton_ends L segs final) as Hsk.
    destruct (skeleton L segs final) as [links | e |]; cbn [bind].
    + apply polygonise_failure.
    + cbn in Hsk. cbn. tauto.
    + left. exact Hsk.
  - destruct parsed as [root | |];
      [| discriminate | injection Hx as <-; left; reflexivity].
    unfold _extract_polylines in Hx.
    destruct (mapM (extract_element L 1.5) (iter root)) as [ps | e' |] eqn:Hm;
      cbn [bind] in Hx; try discriminate.
    injection Hx as <-. left.
    apply (mapM_raise (extract_element L 1.5) (fun e => e = ValueError)
             (extract_element_raise L 1.5) _ _ Hm).
  - destruct parsed as [root | |]; [| discriminate | discriminate].
    unfold _extract_polylines in Hx.
    pose proof (mapM_fuel (extract_element L 1.5) (iter root)
                  (extract_element_fuel L 1.5)) as Hfuel.
    destruct (mapM (extract_element L 1.5) (iter root)) as [ps | e' |];
      cbn [bind] in Hx; [discriminate | discriminate | contradiction].
Qed.

(** X19: when [np.linalg.svd] returns or raises LinAlgError, the skeleton
    stage (lines 354-485) returns its links or raises ValueError (a stripe
    pair that has not two indices) or LinAlgError: [cluster_axis[root]] raises
    no KeyError and [intervals[0]] no IndexError. *)
Theorem skeleton_raises_value_or_linalg_error (L : Lib) (segs : list segment)
    (stripe_pairs : list fs) :
  svd_contract L ->
  skeleton L segs stripe_pairs <> OutOfFuel
  /\ forall e : exn,
       skeleton L segs stripe_pairs = Raise e -> e = ValueError \/ e = LinAlgError.
Proof.
  intros Hsvd.
  pose proof (skeleton_ends L segs stripe_pairs) as H.
  destruct (skeleton L segs stripe_pairs) as [links | e |]; cbn in H.
  - split; [discriminate | discriminate].
  - split; [discriminate |]. intros e0 E. injection E as <-.
    destruct H as [-> | (M & HM)]; [left; reflexivity | right].
    apply (proj2 (Hsvd M) e HM).
  - destruct H as (M & HM). destruct (proj1 (Hsvd M) HM).
Qed.

Lemma skeleton_raises_value_or_linalg_error_witness :
  svd_contract RefLib
  /\ skeleton RefLib Samples.capped_segs [[0; 1]; [2; 3]; [4]] <> OutOfFuel.
Proof.
  assert (H : svd_contract RefLib).
  { intros M. split; [discriminate |]. intros e E. injection E as <-. reflexivity. }
  split; [exact H |].
  exact (proj1 (skeleton_raises_value_or_linalg_error RefLib Samples.capped_segs
                  [[0; 1]; [2; 3]; [4]] H)).
Defined.

Lemma identify_fails_by_value_error_or_library_witness :
  iter_ok RefLib
  /\ library_failure RefLib
       (fst (identify RefLib (MT.seed 0) (Parsed Inputs.capped_wall_svg))).
Proof.
  split; [exact ref_iter_ok |].
  exact (identify_fails_by_value_error_or_library RefLib (MT.seed 0)
           (Parsed Inputs.capped_wall_svg) ref_iter_ok).
Defined.
